(** * storj-uplink-nodejs: the native binding layer

    A shallow embedding of the C sources under [native/src]:

    - [common/handle_helpers.c]   typed handle wrappers (create, extract, destroy)
    - [common/result_helpers.c]   plain error objects
    - [common/error_registry.c]   the typed error class registry
    - [common/cancel_helpers.h]   the REJECT_IF_CANCELLED macro
    - [bucket/*], [download/*]    the completion routines of the async operations

    C integers ([size_t], [int32_t], [int64_t]) are [Z]; a pointer that the
    code only compares with NULL or hands on is the address as a [Z] with
    NULL = 0; a pointer that the code dereferences is an [option] of the
    address paired with the pointed-to struct.  The calls the code makes into
    N-API and into uplink-c that are visible from outside (settling a promise,
    freeing, throwing, releasing a native resource) are recorded, in program
    order, in the trace of the [world].  LOG_* calls are left out. *)

From Stdlib Require Import ZArith Lia.
From stdpp Require Import base option list gmap strings.

Local Open Scope string_scope.
Local Open Scope list_scope.
Local Open Scope Z_scope.

(** ** The N-API surface the sources use *)

Module Napi.

(** The [napi_status] values that occur in the sources. *)
Inductive napi_status :=
| napi_ok
| napi_invalid_arg
| napi_generic_failure
| napi_pending_exception
| napi_cancelled.

#[global] Instance napi_status_eq_dec : EqDecision napi_status.
Proof. solve_decision. Defined.

(** JavaScript values as far as the binding builds or inspects them.
    An object carries the name of the class it was constructed from
    ("Error" for [napi_create_error], "Object" for [napi_create_object],
    the class name for [napi_new_instance]) and its own properties in
    insertion order. *)
#[warnings="-register-all"]
Inductive js_value :=
| JsUndefined
| JsNull
| JsBoolean (b : bool)
| JsNumber (z : Z)
| JsString (s : string)
| JsFunction (name : string)
| JsObject (cls : string) (props : list (string * js_value))
| JsExternal (data : Z).

Inductive napi_valuetype :=
| napi_undefined | napi_null | napi_boolean | napi_number | napi_string
| napi_function | napi_object | napi_external.

Definition napi_typeof (v : js_value) : napi_valuetype :=
  match v with
  | JsUndefined => napi_undefined
  | JsNull => napi_null
  | JsBoolean _ => napi_boolean
  | JsNumber _ => napi_number
  | JsString _ => napi_string
  | JsFunction _ => napi_function
  | JsObject _ _ => napi_object
  | JsExternal _ => napi_external
  end.

#[global] Instance napi_valuetype_eq_dec : EqDecision napi_valuetype.
Proof. solve_decision. Defined.

(** Assignment [obj.key = v] on the own properties of an object. *)
Fixpoint props_set (key : string) (v : js_value) (props : list (string * js_value))
  : list (string * js_value) :=
  match props with
  | [] => [(key, v)]
  | (k, x) :: rest =>
      if decide (k = key) then (k, v) :: rest else (k, x) :: props_set key v rest
  end.

Fixpoint props_get (key : string) (props : list (string * js_value)) : option js_value :=
  match props with
  | [] => None
  | (k, x) :: rest => if decide (k = key) then Some x else props_get key rest
  end.

(** [napi_set_named_property]; on a value that is not an object the call
    fails and changes nothing (the sources ignore its status). *)
Definition napi_set_named_property (obj : js_value) (key : string) (v : js_value) : js_value :=
  match obj with
  | JsObject cls props => JsObject cls (props_set key v props)
  | other => other
  end.

(** Reading [obj.key]: a missing property reads as [undefined]. *)
Definition js_get (obj : js_value) (key : string) : js_value :=
  match obj with
  | JsObject _ props => default JsUndefined (props_get key props)
  | _ => JsUndefined
  end.

Definition js_class_of (v : js_value) : option string :=
  match v with
  | JsObject cls _ => Some cls
  | _ => None
  end.

(** [napi_create_error(env, NULL, msg, &err)]: a plain Error whose only own
    property is the message. *)
Definition napi_create_error (msg : string) : js_value :=
  JsObject "Error" [("message", JsString msg)].

Definition napi_create_object : js_value := JsObject "Object" [].

(** [napi_get_value_external]: the data pointer of an external, a failure
    status for every other value. *)
Definition napi_get_value_external (v : js_value) : napi_status * Z :=
  match v with
  | JsExternal data => (napi_ok, data)
  | _ => (napi_invalid_arg, 0)
  end.

(** Which of the N-API calls and allocations whose status the sources check
    fail.  A call whose status the sources ignore is taken to succeed. *)
Record napi_faults := {
  malloc_fails : bool;
  calloc_fails : bool;
  create_external_fails : bool;
  get_global_fails : bool;
  get_named_property_fails : string -> bool;
  create_string_fails : bool;
  run_script_fails : bool;
  call_function_fails : bool;
  create_reference_fails : string -> bool;
  get_reference_value_fails : Z -> bool;
  new_instance_fails : string -> bool
}.

Definition no_faults : napi_faults :=
  {| malloc_fails := false; calloc_fails := false;
     create_external_fails := false; get_global_fails := false;
     get_named_property_fails := fun _ => false;
     create_string_fails := false; run_script_fails := false;
     call_function_fails := false;
     create_reference_fails := fun _ => false;
     get_reference_value_fails := fun _ => false;
     new_instance_fails := fun _ => false |}.

End Napi.
Export Napi.

(** ** handle_helpers.h: handle kinds and wrappers *)

Inductive HandleType :=
| HANDLE_TYPE_ACCESS
| HANDLE_TYPE_PROJECT
| HANDLE_TYPE_DOWNLOAD
| HANDLE_TYPE_UPLOAD
| HANDLE_TYPE_ENCRYPTION_KEY
| HANDLE_TYPE_PART_UPLOAD
| HANDLE_TYPE_OBJECT_ITERATOR
| HANDLE_TYPE_BUCKET_ITERATOR
| HANDLE_TYPE_UPLOAD_ITERATOR
| HANDLE_TYPE_PART_ITERATOR.

#[global] Instance HandleType_eq_dec : EqDecision HandleType.
Proof. solve_decision. Defined.

(** [typedef struct { HandleType type; size_t handle; void* native_ptr; } HandleWrapper;] *)
Record HandleWrapper := {
  type : HandleType;
  handle : Z;
  native_ptr : Z
}.

(** A block obtained from [malloc(sizeof(HandleWrapper))].  [free] ends the
    block's life and writes nothing into it: the fields keep the values
    last stored. *)
Record wrapper_block := {
  block_contents : HandleWrapper;
  block_live : bool
}.

(** The uplink-c routines the binding calls for their effect. *)
Inductive native_call :=
| uplink_free_access_result (access : Z)
| uplink_free_project_result (project : Z)
| uplink_free_download_result (download : Z)
| uplink_free_upload_result (upload : Z)
| uplink_free_encryption_key_result (encryption_key : Z)
| uplink_free_part_upload_result (part_upload : Z)
| uplink_free_error (error : Z)
| uplink_free_bucket_result (bucket : Z)
| uplink_free_bucket (bucket : Z)
| uplink_free_bucket_iterator (iterator : Z).

(** What the binding does that is visible outside it. *)
Inductive event :=
| EvThrowError (msg : string)
| EvThrowTypeError (msg : string)
| EvReject (deferred : Z) (v : js_value)
| EvResolve (deferred : Z) (v : js_value)
| EvFree (p : Z)
| EvDeleteAsyncWork (work : Z)
| EvDeleteReference (ref : Z)
| EvNative (call : native_call).

(** ** error_registry.c: the registry entries *)

(** [typedef struct { int32_t code; const char* name; napi_ref constructor_ref; } ErrorClassEntry;]
    with [None] for a NULL reference. *)
Record ErrorClassEntry := {
  code : Z;
  name : string;
  constructor_ref : option Z
}.

(** ** The state the binding works on *)

Record world := {
  w_heap : gmap Z wrapper_block;        (* wrapper blocks handed out by malloc *)
  w_refs : gmap Z js_value;             (* live persistent references (napi_ref) *)
  w_fresh : positive;                   (* next address or id that was never handed out *)
  error_registry : list ErrorClassEntry;
  g_registered : bool;
  w_trace : list event                  (* oldest first *)
}.

Definition set_heap (h : gmap Z wrapper_block) (w : world) : world :=
  {| w_heap := h; w_refs := w_refs w; w_fresh := w_fresh w;
     error_registry := error_registry w; g_registered := g_registered w;
     w_trace := w_trace w |}.

Definition set_refs (r : gmap Z js_value) (w : world) : world :=
  {| w_heap := w_heap w; w_refs := r; w_fresh := w_fresh w;
     error_registry := error_registry w; g_registered := g_registered w;
     w_trace := w_trace w |}.

Definition set_fresh (n : positive) (w : world) : world :=
  {| w_heap := w_heap w; w_refs := w_refs w; w_fresh := n;
     error_registry := error_registry w; g_registered := g_registered w;
     w_trace := w_trace w |}.

Definition set_registry (reg : list ErrorClassEntry) (w : world) : world :=
  {| w_heap := w_heap w; w_refs := w_refs w; w_fresh := w_fresh w;
     error_registry := reg; g_registered := g_registered w;
     w_trace := w_trace w |}.

Definition set_registered (b : bool) (w : world) : world :=
  {| w_heap := w_heap w; w_refs := w_refs w; w_fresh := w_fresh w;
     error_registry := error_registry w; g_registered := b;
     w_trace := w_trace w |}.

(** Appends one event to the trace. *)
Definition emit (e : event) (w : world) : world :=
  {| w_heap := w_heap w; w_refs := w_refs w; w_fresh := w_fresh w;
     error_registry := error_registry w; g_registered := g_registered w;
     w_trace := w_trace w ++ [e] |}.

(** Hands out an address or id that was never handed out before; it is
    never 0, as a successful allocation never returns NULL. *)
Definition fresh (w : world) : Z * world :=
  (Z.pos (w_fresh w), set_fresh (Pos.succ (w_fresh w)) w).

(** ** handle_helpers.c *)

Module HandleHelpers.

(** [free_native_resource]: the release routine of each owning kind; the
    [default:] branch (the iterator kinds) calls nothing. *)
Definition free_native_resource (ty : HandleType) (native_ptr : Z) (w : world) : world :=
  match ty with
  | HANDLE_TYPE_ACCESS => emit (EvNative (uplink_free_access_result native_ptr)) w
  | HANDLE_TYPE_PROJECT => emit (EvNative (uplink_free_project_result native_ptr)) w
  | HANDLE_TYPE_DOWNLOAD => emit (EvNative (uplink_free_download_result native_ptr)) w
  | HANDLE_TYPE_UPLOAD => emit (EvNative (uplink_free_upload_result native_ptr)) w
  | HANDLE_TYPE_ENCRYPTION_KEY =>
      emit (EvNative (uplink_free_encryption_key_result native_ptr)) w
  | HANDLE_TYPE_PART_UPLOAD => emit (EvNative (uplink_free_part_upload_result native_ptr)) w
  | _ => w
  end.

(** [free(wrapper)]: the block is dead afterwards, its bytes are as they were. *)
Definition free_wrapper (data : Z) (w : world) : world :=
  match w_heap w !! data with
  | Some b =>
      set_heap (<[data := {| block_contents := block_contents b; block_live := false |}]>
                  (w_heap w)) w
  | None => w
  end.

(** [handle_destructor(env, data, hint)].  The result is [None] where the C
    code has no defined behaviour to model: [data] is neither NULL nor the
    address of a wrapper block.  A block that was freed before is read as C
    reads it, field by field, with whatever was stored last. *)
Definition handle_destructor (data : Z) (w : world) : option world :=
  if decide (data = 0) then Some w
  else
    match w_heap w !! data with
    | None => None
    | Some b =>
        let wrapper := block_contents b in
        let w1 :=
          if decide (native_ptr wrapper = 0) then w
          else free_native_resource (type wrapper) (native_ptr wrapper) w in
        Some (free_wrapper data w1)
    end.

(** [create_handle_external(env, handle, type, native_ptr, destructor)].
    The finalizer registered with the external is [handle_destructor] when
    [destructor] is NULL, which is how every caller in the sources calls it;
    the model fixes that choice. *)
Definition create_handle_external (F : napi_faults) (handle : Z) (ty : HandleType)
    (native_ptr : Z) (w : world) : option js_value * world :=
  if malloc_fails F then (None, emit (EvThrowError "Out of memory") w)
  else
    let (addr, w1) := fresh w in
    let wrapper := {| type := ty; handle := handle; native_ptr := native_ptr |} in
    if create_external_fails F then
      (* malloc, then free(wrapper): no block is left behind *)
      (None, w1)
    else
      (Some (JsExternal addr),
       set_heap (<[addr := {| block_contents := wrapper; block_live := true |}]> (w_heap w1)) w1).

(** [extract_handle(env, js_value, type, out_handle)]: the status and, when
    the function stores through [out_handle], the stored id.  [None] as the
    whole result where C has no defined behaviour: the external's data is
    not the address of a wrapper block. *)
Definition extract_handle (w : world) (js : js_value) (ty : HandleType)
  : option (napi_status * option Z) :=
  let (status, data) := napi_get_value_external js in
  if decide (status <> napi_ok \/ data = 0) then Some (napi_invalid_arg, None)
  else
    match w_heap w !! data with
    | None => None
    | Some b =>
        let wrapper := block_contents b in
        if decide (type wrapper <> ty) then Some (napi_invalid_arg, None)
        else if decide (handle wrapper = 0) then Some (napi_invalid_arg, None)
        else Some (napi_ok, Some (handle wrapper))
    end.

(** [int validate_handle(size_t handle) { return handle != 0; }] *)
Definition validate_handle (handle : Z) : Z :=
  if decide (handle <> 0) then 1 else 0.

End HandleHelpers.
Export HandleHelpers.

(** ** uplink.h as the binding sees it *)

Module Uplink.

(** [typedef struct UplinkError { int32_t code; char *message; } UplinkError;]
    A NULL message is [None]. *)
Record UplinkError := {
  code : Z;
  message : option string
}.

(** [typedef struct UplinkBucket { char *name; int64_t created; } UplinkBucket;] *)
Record UplinkBucket := {
  name : string;
  created : Z
}.

(** A non-NULL pointer to a [T]: the address and the struct found there. *)
Record ptr (T : Type) := Ptr {
  addr : Z;
  deref : T
}.
Arguments Ptr {T} _ _.
Arguments addr {T} _.
Arguments deref {T} _.

End Uplink.

(** ** result_helpers.c *)

Module ResultHelpers.

Definition UPLINK_ERROR_INTERNAL : Z := 0x02.
Definition UPLINK_ERROR_CANCELED : Z := 0x03.
Definition UPLINK_ERROR_INVALID_HANDLE : Z := 0x04.
Definition UPLINK_ERROR_TOO_MANY_REQUESTS : Z := 0x05.
Definition UPLINK_ERROR_BANDWIDTH_LIMIT_EXCEEDED : Z := 0x06.
Definition UPLINK_ERROR_STORAGE_LIMIT_EXCEEDED : Z := 0x07.
Definition UPLINK_ERROR_SEGMENTS_LIMIT_EXCEEDED : Z := 0x08.
Definition UPLINK_ERROR_PERMISSION_DENIED : Z := 0x09.
Definition UPLINK_ERROR_BUCKET_NAME_INVALID : Z := 0x10.
Definition UPLINK_ERROR_BUCKET_ALREADY_EXISTS : Z := 0x11.
Definition UPLINK_ERROR_BUCKET_NOT_EMPTY : Z := 0x12.
Definition UPLINK_ERROR_BUCKET_NOT_FOUND : Z := 0x13.
Definition UPLINK_ERROR_OBJECT_KEY_INVALID : Z := 0x20.
Definition UPLINK_ERROR_OBJECT_NOT_FOUND : Z := 0x21.
Definition UPLINK_ERROR_UPLOAD_DONE : Z := 0x22.

(** [static const ErrorNameEntry ERROR_NAMES[]] *)
Definition ERROR_NAMES : list (Z * string) :=
  [ (UPLINK_ERROR_INTERNAL,                 "InternalError");
    (UPLINK_ERROR_CANCELED,                 "CanceledError");
    (UPLINK_ERROR_INVALID_HANDLE,           "InvalidHandleError");
    (UPLINK_ERROR_TOO_MANY_REQUESTS,        "TooManyRequestsError");
    (UPLINK_ERROR_BANDWIDTH_LIMIT_EXCEEDED, "BandwidthLimitError");
    (UPLINK_ERROR_STORAGE_LIMIT_EXCEEDED,   "StorageLimitError");
    (UPLINK_ERROR_SEGMENTS_LIMIT_EXCEEDED,  "SegmentsLimitError");
    (UPLINK_ERROR_PERMISSION_DENIED,        "PermissionDeniedError");
    (UPLINK_ERROR_BUCKET_NAME_INVALID,      "BucketNameInvalidError");
    (UPLINK_ERROR_BUCKET_ALREADY_EXISTS,    "BucketAlreadyExistsError");
    (UPLINK_ERROR_BUCKET_NOT_EMPTY,         "BucketNotEmptyError");
    (UPLINK_ERROR_BUCKET_NOT_FOUND,         "BucketNotFoundError");
    (UPLINK_ERROR_OBJECT_KEY_INVALID,       "ObjectKeyInvalidError");
    (UPLINK_ERROR_OBJECT_NOT_FOUND,         "ObjectNotFoundError");
    (UPLINK_ERROR_UPLOAD_DONE,              "UploadDoneError") ].

(** The loop of [get_error_name] over a table. *)
Fixpoint get_error_name_in (table : list (Z * string)) (code : Z) : string :=
  match table with
  | [] => "UplinkError"
  | (c, n) :: rest => if decide (c = code) then n else get_error_name_in rest code
  end.

Definition get_error_name (code : Z) : string := get_error_name_in ERROR_NAMES code.

(** [uplink_error_to_js(env, error)]: NULL for a NULL error, otherwise a
    plain Error with the message (or "Unknown error") and the properties
    [code] and [name] set on it. *)
Definition uplink_error_to_js (error : option Uplink.UplinkError) : option js_value :=
  match error with
  | None => None
  | Some e =>
      let message := default "Unknown error" (Uplink.message e) in
      let js_error := napi_create_error message in
      let js_error := napi_set_named_property js_error "code" (JsNumber (Uplink.code e)) in
      let js_error :=
        napi_set_named_property js_error "name" (JsString (get_error_name (Uplink.code e))) in
      Some js_error
  end.

End ResultHelpers.
Export ResultHelpers.

(** ** error_registry.c *)

Module ErrorRegistry.

(** The subclasses that [ERROR_CLASSES_JS] declares, each as
    [class <name> extends StorjError { constructor(details) { super(<title>, <code>, details); } }]. *)
Definition ERROR_CLASSES_JS : list (string * (string * Z)) :=
  [ ("InternalError",                 ("Internal error",              0x02));
    ("CanceledError",                 ("Operation canceled",          0x03));
    ("InvalidHandleError",            ("Invalid handle",              0x04));
    ("TooManyRequestsError",          ("Too many requests",           0x05));
    ("BandwidthLimitExceededError",   ("Bandwidth limit exceeded",    0x06));
    ("StorageLimitExceededError",     ("Storage limit exceeded",      0x07));
    ("SegmentsLimitExceededError",    ("Segments limit exceeded",     0x08));
    ("PermissionDeniedError",         ("Permission denied",           0x09));
    ("BucketNameInvalidError",        ("Invalid bucket name",         0x10));
    ("BucketAlreadyExistsError",      ("Bucket already exists",       0x11));
    ("BucketNotEmptyError",           ("Bucket is not empty",         0x12));
    ("BucketNotFoundError",           ("Bucket not found",            0x13));
    ("ObjectKeyInvalidError",         ("Invalid object key",          0x20));
    ("ObjectNotFoundError",           ("Object not found",            0x21));
    ("UploadDoneError",               ("Upload already done",         0x22));
    ("EdgeAuthDialFailedError",       ("Edge auth dial failed",       0x30));
    ("EdgeRegisterAccessFailedError", ("Edge register access failed", 0x31)) ].

(** The object the factory of [ERROR_CLASSES_JS] returns: the base class
    and every subclass under its own name. *)
Definition error_classes_object : js_value :=
  JsObject "Object"
    (("StorjError", JsFunction "StorjError")
       :: map (fun c => (c.1, JsFunction c.1)) ERROR_CLASSES_JS).

(** The body of the base constructor,
    [constructor(message, code, details)] of [StorjError], for an instance
    of class [cls]: the message handed to [super] is
    [details != null && details !== '' ? message + ': ' + details : message],
    then [name], [code] and [details] are assigned.  [message] and [details]
    are strings or [undefined] ([None]), the only shapes [create_typed_error]
    passes. *)
Definition js_of_opt (s : option string) : js_value :=
  match s with
  | Some x => JsString x
  | None => JsUndefined
  end.

Definition StorjError_constructor (cls : string) (message : option string)
    (code : js_value) (details : option string) : js_value :=
  let super_arg :=
    match details with
    | Some d =>
        if decide (d = "") then message
        else Some (default "undefined" message +:+ ": " +:+ d)
    | None => message
    end in
  JsObject cls
    [ ("message", JsString (default "" super_arg));
      ("name", JsString cls);
      ("code", code);
      ("details", js_of_opt details) ].

(** [new cls(arg)] for a class of the hierarchy; [None] for a name the
    hierarchy does not declare. *)
Definition js_new (cls : string) (arg : option string) : option js_value :=
  if decide (cls = "StorjError") then
    Some (StorjError_constructor cls arg JsUndefined None)
  else
    match list_find (fun c => c.1 = cls) ERROR_CLASSES_JS with
    | Some (_, (_, (title, code))) =>
        Some (StorjError_constructor cls (Some title) (JsNumber code) arg)
    | None => None
    end.

(** [static ErrorClassEntry error_registry[]] as the program starts. *)
Definition error_registry_init : list ErrorClassEntry :=
  map (fun e => {| code := e.1; name := e.2; constructor_ref := None |})
    [ (0,                                     "StorjError");
      (UPLINK_ERROR_INTERNAL,                 "InternalError");
      (UPLINK_ERROR_CANCELED,                 "CanceledError");
      (UPLINK_ERROR_INVALID_HANDLE,           "InvalidHandleError");
      (UPLINK_ERROR_TOO_MANY_REQUESTS,        "TooManyRequestsError");
      (UPLINK_ERROR_BANDWIDTH_LIMIT_EXCEEDED, "BandwidthLimitExceededError");
      (UPLINK_ERROR_STORAGE_LIMIT_EXCEEDED,   "StorageLimitExceededError");
      (UPLINK_ERROR_SEGMENTS_LIMIT_EXCEEDED,  "SegmentsLimitExceededError");
      (UPLINK_ERROR_PERMISSION_DENIED,        "PermissionDeniedError");
      (UPLINK_ERROR_BUCKET_NAME_INVALID,      "BucketNameInvalidError");
      (UPLINK_ERROR_BUCKET_ALREADY_EXISTS,    "BucketAlreadyExistsError");
      (UPLINK_ERROR_BUCKET_NOT_EMPTY,         "BucketNotEmptyError");
      (UPLINK_ERROR_BUCKET_NOT_FOUND,         "BucketNotFoundError");
      (UPLINK_ERROR_OBJECT_KEY_INVALID,       "ObjectKeyInvalidError");
      (UPLINK_ERROR_OBJECT_NOT_FOUND,         "ObjectNotFoundError");
      (UPLINK_ERROR_UPLOAD_DONE,              "UploadDoneError");
      (0x30,                                  "EdgeAuthDialFailedError");
      (0x31,                                  "EdgeRegisterAccessFailedError") ].

(** The state of a process that has loaded the addon and done nothing yet. *)
Definition initial_world : world :=
  {| w_heap := ∅; w_refs := ∅; w_fresh := 1%positive;
     error_registry := error_registry_init; g_registered := false;
     w_trace := [] |}.

Definition error_classes_registered (w : world) : bool := g_registered w.

(** [register_one_error_class(env, classes_obj, entry)]: the count it
    returns (1 or 0), the entry afterwards and the world afterwards. *)
Definition register_one_error_class (F : napi_faults) (classes_obj : js_value)
    (entry : ErrorClassEntry) (w : world) : Z * ErrorClassEntry * world :=
  if get_named_property_fails F (name entry) then (0, entry, w)
  else
    let constructor := js_get classes_obj (name entry) in
    if decide (napi_typeof constructor <> napi_function) then (0, entry, w)
    else if create_reference_fails F (name entry) then (0, entry, w)
    else
      let (r, w1) := fresh w in
      (1,
       {| code := code entry; name := name entry; constructor_ref := Some r |},
       set_refs (<[r := constructor]> (w_refs w1)) w1).

(** The loop [for (i = 0; i < ERROR_REGISTRY_SIZE; i++) count += register_one_error_class(...)]
    over the entries from index [i] on. *)
Fixpoint register_all (F : napi_faults) (classes_obj : js_value)
    (entries : list ErrorClassEntry) (w : world) : Z * list ErrorClassEntry * world :=
  match entries with
  | [] => (0, [], w)
  | entry :: rest =>
      let '(n, entry', w1) := register_one_error_class F classes_obj entry w in
      let '(count, rest', w2) := register_all F classes_obj rest w1 in
      (n + count, entry' :: rest', w2)
  end.

(** [get_error_base_constructor(env, argc, argv, out_ctor)] *)
Definition get_error_base_constructor (F : napi_faults) (argv : list js_value)
  : napi_status * option js_value :=
  match argv with
  | a :: _ =>
      if decide (napi_typeof a = napi_function) then (napi_ok, Some a)
      else if get_global_fails F then (napi_generic_failure, None)
      else if get_named_property_fails F "Error" then (napi_generic_failure, None)
      else (napi_ok, Some (JsFunction "Error"))
  | [] =>
      if get_global_fails F then (napi_generic_failure, None)
      else if get_named_property_fails F "Error" then (napi_generic_failure, None)
      else (napi_ok, Some (JsFunction "Error"))
  end.

(** The loop of [error_registry_cleanup] over the entries. *)
Fixpoint cleanup_entries (entries : list ErrorClassEntry) (w : world)
  : list ErrorClassEntry * world :=
  match entries with
  | [] => ([], w)
  | entry :: rest =>
      let '(entry', w1) :=
        match constructor_ref entry with
        | Some r =>
            ({| code := code entry; name := name entry; constructor_ref := None |},
             emit (EvDeleteReference r) (set_refs (delete r (w_refs w)) w))
        | None => (entry, w)
        end in
      let '(rest', w2) := cleanup_entries rest w1 in
      (entry' :: rest', w2)
  end.

(** [error_registry_cleanup(env)] *)
Definition error_registry_cleanup (w : world) : world :=
  let '(entries, w1) := cleanup_entries (error_registry w) w in
  set_registered false (set_registry entries w1).

(** [napi_init_error_classes(env, info)] with the call's arguments [argv]:
    the returned value ([None] for NULL) and the world afterwards. *)
Definition napi_init_error_classes (F : napi_faults) (argv : list js_value) (w : world)
  : option js_value * world :=
  let w := if g_registered w then error_registry_cleanup w else w in
  match get_error_base_constructor F argv with
  | (napi_ok, Some error_ctor) =>
      if create_string_fails F then
        (None, emit (EvThrowError "Failed to create error classes JS string") w)
      else if run_script_fails F then
        (None, emit (EvThrowError "Failed to execute error classes factory script") w)
      else if call_function_fails F then
        (None, emit (EvThrowError "Failed to call error classes factory function") w)
      else
        let classes_obj := error_classes_object in
        let '(count, entries, w1) := register_all F classes_obj (error_registry w) w in
        (Some classes_obj, set_registered true (set_registry entries w1))
  | _ => (None, emit (EvThrowError "Failed to get Error constructor") w)
  end.

(** [find_error_constructor_ref(code)] over a table: the first entry with
    this code and a non-NULL reference. *)
Fixpoint find_error_constructor_ref_in (entries : list ErrorClassEntry) (c : Z)
  : option Z :=
  match entries with
  | [] => None
  | entry :: rest =>
      if decide (code entry = c) then
        match constructor_ref entry with
        | Some r => Some r
        | None => find_error_constructor_ref_in rest c
        end
      else find_error_constructor_ref_in rest c
  end.

Definition find_error_constructor_ref (w : world) (c : Z) : option Z :=
  find_error_constructor_ref_in (error_registry w) c.

(** [napi_get_reference_value]: the referenced value of a live reference. *)
Definition napi_get_reference_value (F : napi_faults) (w : world) (r : Z) : option js_value :=
  if get_reference_value_fails F r then None else w_refs w !! r.

(** [napi_new_instance(env, constructor, 1, args, &instance)] with
    [args[0]] a string or [undefined]. *)
Definition napi_new_instance (F : napi_faults) (constructor : js_value) (arg : option string)
  : option js_value :=
  match constructor with
  | JsFunction cls => if new_instance_fails F cls then None else js_new cls arg
  | _ => None
  end.

(** The fallback at the end of [create_typed_error]: a plain Error from
    [uplink_error_to_js] on a stack-allocated [UplinkErrorSimple]. *)
Definition fallback_error (c : Z) (message : option string) : js_value :=
  let simple_err :=
    {| Uplink.code := c;
       Uplink.message := Some (default "Unknown error" message) |} in
  default JsUndefined (uplink_error_to_js (Some simple_err)).

(** [create_typed_error(env, code, message)]; [message] is [None] for NULL. *)
Definition create_typed_error (F : napi_faults) (w : world) (c : Z) (message : option string)
  : js_value :=
  let typed :=
    if g_registered w then
      match find_error_constructor_ref w c with
      | Some ref =>
          match napi_get_reference_value F w ref with
          | Some constructor => napi_new_instance F constructor message
          | None => None
          end
      | None => None
      end
    else None in
  match typed with
  | Some instance => instance
  | None => fallback_error c message
  end.

End ErrorRegistry.
Export ErrorRegistry.

(** ** cancel_helpers.h and the async-work contract of N-API *)

Module Async.

(** [REJECT_IF_CANCELLED(env, status, deferred, func_name)]: [Some] world
    when the macro rejects and jumps to [cleanup:], [None] when control
    falls through to the statement after it. *)
Definition REJECT_IF_CANCELLED (status : napi_status) (deferred : Z) (w : world)
  : option world :=
  if decide (status = napi_cancelled) then
    let _cancel_msg := "Operation cancelled" in
    let _cancel_err := napi_create_error _cancel_msg in
    Some (emit (EvReject deferred _cancel_err) w)
  else None.

(** What N-API does with a work item queued by [napi_queue_async_work]:
    either the work is cancelled before [execute] ran and [complete] is
    called with [napi_cancelled], or [execute] runs on a worker thread and
    then [complete] is called with [napi_ok]; in both cases [complete] is
    called once, on the main thread, with the [data] pointer given to
    [napi_create_async_work]. *)
Definition run_async_work {T : Type} (cancelled : bool)
    (execute : T -> world -> T * world)
    (complete : napi_status -> Z -> T -> world -> world)
    (data : Z) (work_data : T) (w : world) : world :=
  if cancelled then complete napi_cancelled data work_data w
  else
    let (work_data', w1) := execute work_data w in
    complete napi_ok data work_data' w1.

(** What an exported function left behind when it returned: it threw and
    returned NULL, or it queued a work item over the payload at [data] and
    returned the promise of [deferred]. *)
Inductive call_outcome (T : Type) :=
| Threw (w : world)
| Queued (data : Z) (work_data : T) (w : world).
Arguments Threw {T} _.
Arguments Queued {T} _ _ _.

(** The address of a pointer that may be NULL. *)
Definition addr_of {T : Type} (p : option (Uplink.ptr T)) : Z :=
  match p with
  | Some q => Uplink.addr q
  | None => 0
  end.

(** [(int64_t)x] for a [size_t] x. *)
Definition to_int64 (x : Z) : Z :=
  let m := x mod 2 ^ 64 in
  if decide (m < 2 ^ 63) then m else m - 2 ^ 64.

(** [napi_create_int64]: the number with this value (exact for the
    magnitudes below 2^53 that a JavaScript number holds exactly). *)
Definition napi_create_int64 (x : Z) : js_value := JsNumber x.

End Async.
Export Async.

(** ** bucket_types.h, bucket_ops.c, bucket_execute.c, bucket_complete.c *)

Module Bucket.

(** [typedef struct UplinkBucketResult { UplinkBucket *bucket; UplinkError *error; }] *)
Record UplinkBucketResult := {
  bucket : option (Uplink.ptr Uplink.UplinkBucket);
  error : option (Uplink.ptr Uplink.UplinkError)
}.

Module BucketOpData.
Record t := {
    project_handle : Z;
    bucket_name : Z;
    result : UplinkBucketResult;
    deferred : Z;
    work : Z
}.
End BucketOpData.

Module BucketIteratorErrData.
Record t := {
    iterator_handle : Z;
    error : option (Uplink.ptr Uplink.UplinkError);
    deferred : Z;
    work : Z
}.
End BucketIteratorErrData.

Module FreeBucketIteratorData.
Record t := {
    iterator_handle : Z;
    deferred : Z;
    work : Z
}.
End FreeBucketIteratorData.

(** The uplink-c calls of this module whose result the binding uses. *)
Record uplink_bucket_lib := {
  uplink_create_bucket : Z -> Z -> UplinkBucketResult;
  uplink_bucket_iterator_err : Z -> option (Uplink.ptr Uplink.UplinkError)
}.

(** [uplink_bucket_to_js(env, bucket)] *)
Definition uplink_bucket_to_js (b : option (Uplink.ptr Uplink.UplinkBucket)) : js_value :=
  match b with
  | None => JsUndefined
  | Some p =>
      let obj := napi_create_object in
      let obj := napi_set_named_property obj "name" (JsString (Uplink.name (Uplink.deref p))) in
      let obj :=
        napi_set_named_property obj "created"
          (napi_create_int64 (Uplink.created (Uplink.deref p))) in
      obj
  end.

(** [create_bucket_execute(env, data)] *)
Definition create_bucket_execute (L : uplink_bucket_lib) (work_data : BucketOpData.t)
    (w : world) : BucketOpData.t * world :=
  ({| BucketOpData.project_handle := BucketOpData.project_handle work_data;
      BucketOpData.bucket_name := BucketOpData.bucket_name work_data;
      BucketOpData.result :=
        uplink_create_bucket L (BucketOpData.project_handle work_data)
          (BucketOpData.bucket_name work_data);
      BucketOpData.deferred := BucketOpData.deferred work_data;
      BucketOpData.work := BucketOpData.work work_data |}, w).

(** [create_bucket_complete(env, status, data)]; [work_data] is the struct
    at [data]. *)
Definition create_bucket_complete (F : napi_faults) (status : napi_status) (data : Z)
    (work_data : BucketOpData.t) (w : world) : world :=
  let cleanup (w : world) : world :=
    let w := emit (EvFree (BucketOpData.bucket_name work_data)) w in
    let w := emit (EvDeleteAsyncWork (BucketOpData.work work_data)) w in
    emit (EvFree data) w in
  match REJECT_IF_CANCELLED status (BucketOpData.deferred work_data) w with
  | Some w => cleanup w
  | None =>
      match error (BucketOpData.result work_data) with
      | Some e =>
          let err :=
            create_typed_error F w (Uplink.code (Uplink.deref e))
              (Uplink.message (Uplink.deref e)) in
          let w := emit (EvReject (BucketOpData.deferred work_data) err) w in
          let w := emit (EvNative (uplink_free_error (Uplink.addr e))) w in
          cleanup w
      | None =>
          let bucket_obj := uplink_bucket_to_js (bucket (BucketOpData.result work_data)) in
          let w :=
            emit (EvNative (uplink_free_bucket_result
                              (addr_of (bucket (BucketOpData.result work_data))))) w in
          let w := emit (EvResolve (BucketOpData.deferred work_data) bucket_obj) w in
          cleanup w
      end
  end.



(** [bucket_iterator_err_complete(env, status, data)] *)
Definition bucket_iterator_err_complete (F : napi_faults) (status : napi_status) (data : Z)
    (work_data : BucketIteratorErrData.t) (w : world) : world :=
  let cleanup (w : world) : world :=
    let w := emit (EvDeleteAsyncWork (BucketIteratorErrData.work work_data)) w in
    emit (EvFree data) w in
  match REJECT_IF_CANCELLED status (BucketIteratorErrData.deferred work_data) w with
  | Some w => cleanup w
  | None =>
      match BucketIteratorErrData.error work_data with
      | Some e =>
          let err :=
            create_typed_error F w (Uplink.code (Uplink.deref e))
              (Uplink.message (Uplink.deref e)) in
          let w := emit (EvNative (uplink_free_error (Uplink.addr e))) w in
          let w := emit (EvResolve (BucketIteratorErrData.deferred work_data) err) w in
          cleanup w
      | None =>
          let null_val := JsNull in
          let w := emit (EvResolve (BucketIteratorErrData.deferred work_data) null_val) w in
          cleanup w
      end
  end.

(** [free_bucket_iterator(env, info)] called with the arguments [argv]. *)
Definition free_bucket_iterator (F : napi_faults) (argv : list js_value) (w : world)
  : option (call_outcome FreeBucketIteratorData.t) :=
  match argv with
  | [] => Some (Threw (emit (EvThrowTypeError "iteratorHandle is required") w))
  | a :: _ =>
      match extract_handle w a HANDLE_TYPE_BUCKET_ITERATOR with
      | None => None
      | Some (napi_ok, Some iterator_handle) =>
          if calloc_fails F then Some (Threw (emit (EvThrowError "Out of memory") w))
          else
            let (data, w) := fresh w in
            let (deferred, w) := fresh w in
            let (work, w) := fresh w in
            Some (Queued data
                    {| FreeBucketIteratorData.iterator_handle := iterator_handle;
                       FreeBucketIteratorData.deferred := deferred;
                       FreeBucketIteratorData.work := work |} w)
      | Some _ =>
          Some (Threw (emit (EvThrowTypeError "Invalid bucket iterator handle") w))
      end
  end.

(** [free_bucket_iterator_execute(env, data)] *)
Definition free_bucket_iterator_execute (work_data : FreeBucketIteratorData.t) (w : world)
  : FreeBucketIteratorData.t * world :=
  let iterator := FreeBucketIteratorData.iterator_handle work_data in
  (work_data, emit (EvNative (uplink_free_bucket_iterator iterator)) w).

(** [free_bucket_iterator_complete(env, status, data)] *)
Definition free_bucket_iterator_complete (status : napi_status) (data : Z)
    (work_data : FreeBucketIteratorData.t) (w : world) : world :=
  let cleanup (w : world) : world :=
    let w := emit (EvDeleteAsyncWork (FreeBucketIteratorData.work work_data)) w in
    emit (EvFree data) w in
  match REJECT_IF_CANCELLED status (FreeBucketIteratorData.deferred work_data) w with
  | Some w => cleanup w
  | None =>
      let undefined := JsUndefined in
      let w := emit (EvResolve (FreeBucketIteratorData.deferred work_data) undefined) w in
      cleanup w
  end.

(** One whole [freeBucketIterator(argv)] call from JavaScript: the exported
    function and, when it queued work, the work item run to its completion. *)
Definition free_bucket_iterator_call (F : napi_faults) (cancelled : bool)
    (argv : list js_value) (w : world) : option world :=
  match free_bucket_iterator F argv w with
  | None => None
  | Some (Threw w1) => Some w1
  | Some (Queued data work_data w1) =>
      Some (run_async_work cancelled free_bucket_iterator_execute
              free_bucket_iterator_complete data work_data w1)
  end.

End Bucket.

(** ** download_types.h, download_ops.c, download_execute.c, download_complete.c *)

Module Download.

(** [typedef struct UplinkDownload { size_t _handle; } UplinkDownload;] *)
Record UplinkDownload := {
  _handle : Z
}.

Record UplinkDownloadResult := {
  download : option (Uplink.ptr UplinkDownload);
  error : option (Uplink.ptr Uplink.UplinkError)
}.

Module UplinkReadResult.
Record t := {
    bytes_read : Z;
    error : option (Uplink.ptr Uplink.UplinkError)
}.
End UplinkReadResult.

Module DownloadObjectData.
Record t := {
    project_handle : Z;
    bucket_name : Z;
    object_key : Z;
    offset : Z;
    length : Z;
    result : UplinkDownloadResult;
    deferred : Z;
    work : Z
}.
End DownloadObjectData.

Module DownloadReadData.
Record t := {
    download_handle : Z;
    buffer_ptr : Z;
    data_length : Z;
    buffer_ref : option Z;
    result : UplinkReadResult.t;
    deferred : Z;
    work : Z
}.
End DownloadReadData.

(** [uplink_download_read(&download, buf, len)] as a function of the
    download's handle and [len]. *)
Record uplink_download_lib := {
  uplink_download_read : Z -> Z -> UplinkReadResult.t
}.

(** [download_object_complete(env, status, data)].  [None] where the C code
    has no defined behaviour: no error and a NULL [result.download], which
    the success branch dereferences. *)
Definition download_object_complete (F : napi_faults) (status : napi_status) (data : Z)
    (work_data : DownloadObjectData.t) (w : world) : option world :=
  let cleanup (w : world) : world :=
    let w := emit (EvFree (DownloadObjectData.bucket_name work_data)) w in
    let w := emit (EvFree (DownloadObjectData.object_key work_data)) w in
    let w := emit (EvDeleteAsyncWork (DownloadObjectData.work work_data)) w in
    emit (EvFree data) w in
  match REJECT_IF_CANCELLED status (DownloadObjectData.deferred work_data) w with
  | Some w => Some (cleanup w)
  | None =>
      match error (DownloadObjectData.result work_data) with
      | Some e =>
          let err :=
            create_typed_error F w (Uplink.code (Uplink.deref e))
              (Uplink.message (Uplink.deref e)) in
          let w := emit (EvReject (DownloadObjectData.deferred work_data) err) w in
          let w := emit (EvNative (uplink_free_error (Uplink.addr e))) w in
          Some (cleanup w)
      | None =>
          match download (DownloadObjectData.result work_data) with
          | None => None
          | Some d =>
              let result_obj := napi_create_object in
              let (download_handle, w) :=
                create_handle_external F (_handle (Uplink.deref d)) HANDLE_TYPE_DOWNLOAD
                  (Uplink.addr d) w in
              let result_obj :=
                match download_handle with
                | Some h => napi_set_named_property result_obj "downloadHandle" h
                | None => result_obj
                end in
              let w := emit (EvResolve (DownloadObjectData.deferred work_data) result_obj) w in
              Some (cleanup w)
          end
      end
  end.

(** The check of [download_read] on its [length] argument, an [int64_t],
    against the buffer's length: the [data_length] stored in the payload, or
    [None] when the function throws "Length exceeds buffer size". *)
Definition download_read_length (length buffer_length : Z) : option Z :=
  if decide (length < 0 \/ length > buffer_length) then None else Some length.

(** [download_read_execute(env, data)] *)
Definition download_read_execute (L : uplink_download_lib) (work_data : DownloadReadData.t)
    (w : world) : DownloadReadData.t * world :=
  ({| DownloadReadData.download_handle := DownloadReadData.download_handle work_data;
      DownloadReadData.buffer_ptr := DownloadReadData.buffer_ptr work_data;
      DownloadReadData.data_length := DownloadReadData.data_length work_data;
      DownloadReadData.buffer_ref := DownloadReadData.buffer_ref work_data;
      DownloadReadData.result :=
        uplink_download_read L (DownloadReadData.download_handle work_data)
          (DownloadReadData.data_length work_data);
      DownloadReadData.deferred := DownloadReadData.deferred work_data;
      DownloadReadData.work := DownloadReadData.work work_data |}, w).

(** [download_read_complete(env, status, data)] *)
Definition download_read_complete (F : napi_faults) (status : napi_status) (data : Z)
    (work_data : DownloadReadData.t) (w : world) : world :=
  let cleanup (w : world) : world :=
    let w :=
      match DownloadReadData.buffer_ref work_data with
      | Some r => emit (EvDeleteReference r) (set_refs (delete r (w_refs w)) w)
      | None => w
      end in
    let w := emit (EvDeleteAsyncWork (DownloadReadData.work work_data)) w in
    emit (EvFree data) w in
  match REJECT_IF_CANCELLED status (DownloadReadData.deferred work_data) w with
  | Some w => cleanup w
  | None =>
      let result := DownloadReadData.result work_data in
      match UplinkReadResult.error result with
      | Some e =>
          let err :=
            create_typed_error F w (Uplink.code (Uplink.deref e))
              (Some (default "EOF" (Uplink.message (Uplink.deref e)))) in
          let bytes_read_val := napi_create_int64 (to_int64 (UplinkReadResult.bytes_read result)) in
          let err := napi_set_named_property err "bytesRead" bytes_read_val in
          let w := emit (EvReject (DownloadReadData.deferred work_data) err) w in
          let w := emit (EvNative (uplink_free_error (Uplink.addr e))) w in
          cleanup w
      | None =>
          let result_obj := napi_create_object in
          let bytes_read := napi_create_int64 (to_int64 (UplinkReadResult.bytes_read result)) in
          let result_obj := napi_set_named_property result_obj "bytesRead" bytes_read in
          let w := emit (EvResolve (DownloadReadData.deferred work_data) result_obj) w in
          cleanup w
      end
  end.

End Download.

(** ** Reading a trace *)

Module Trace.

(** The kind and descriptor a native release routine is called for. *)
Definition released_by (c : native_call) : option (HandleType * Z) :=
  match c with
  | uplink_free_access_result p => Some (HANDLE_TYPE_ACCESS, p)
  | uplink_free_project_result p => Some (HANDLE_TYPE_PROJECT, p)
  | uplink_free_download_result p => Some (HANDLE_TYPE_DOWNLOAD, p)
  | uplink_free_upload_result p => Some (HANDLE_TYPE_UPLOAD, p)
  | uplink_free_encryption_key_result p => Some (HANDLE_TYPE_ENCRYPTION_KEY, p)
  | uplink_free_part_upload_result p => Some (HANDLE_TYPE_PART_UPLOAD, p)
  | _ => None
  end.

Definition is_native_release (e : event) : bool :=
  match e with
  | EvNative c => bool_decide (is_Some (released_by c))
  | _ => false
  end.

(** How often a release routine of a handle's descriptor was called. *)
Definition native_release_count (tr : list event) : nat :=
  length (List.filter is_native_release tr).

(** The kinds whose wrapper owns a descriptor: the cases of the switch in
    [free_native_resource]. *)
Definition owning_kind (ty : HandleType) : bool :=
  match ty with
  | HANDLE_TYPE_ACCESS | HANDLE_TYPE_PROJECT | HANDLE_TYPE_DOWNLOAD
  | HANDLE_TYPE_UPLOAD | HANDLE_TYPE_ENCRYPTION_KEY | HANDLE_TYPE_PART_UPLOAD => true
  | _ => false
  end.

(** The events of a [cleanup:] block: freeing payload memory, deleting the
    work item, dropping a reference. *)
Definition is_cleanup_event (e : event) : bool :=
  match e with
  | EvFree _ | EvDeleteAsyncWork _ | EvDeleteReference _ => true
  | _ => false
  end.

(** Settling a promise. *)
Definition is_settlement (e : event) : bool :=
  match e with
  | EvReject _ _ | EvResolve _ _ => true
  | _ => false
  end.


Definition iterator_free_count (it : Z) (tr : list event) : nat :=
  length (List.filter
            (fun e => match e with
                      | EvNative (uplink_free_bucket_iterator i) => bool_decide (i = it)
                      | _ => false
                      end) tr).

End Trace.
Export Trace.

(** ** The two release disciplines as the specification words them *)

Module Stated.

(** After the release path ran on the wrapper at [data], the wrapper's
    [native_ptr] field holds NULL. *)
Definition release_nulls_native_ptr (data : Z) (w : world) : Prop :=
  forall w1, handle_destructor data w = Some w1 ->
    exists b, w_heap w1 !! data = Some b /\ native_ptr (block_contents b) = 0.

(** Running the release path twice on the wrapper at [data] calls a native
    release routine at most once in total. *)
Definition released_at_most_once (data : Z) (w : world) : Prop :=
  forall w1 w2,
    handle_destructor data w = Some w1 ->
    handle_destructor data w1 = Some w2 ->
    (native_release_count (w_trace w2) <= native_release_count (w_trace w) + 1)%nat.

(** After one whole [freeBucketIterator(v)], a second [freeBucketIterator(v)]
    fails the extraction: it throws the invalid-handle error and queues
    nothing. *)
Definition second_free_rejected (F : napi_faults) (v : js_value) (w : world) : Prop :=
  forall w1,
    Bucket.free_bucket_iterator_call F false [v] w = Some w1 ->
    exists w2,
      Bucket.free_bucket_iterator F [v] w1 = Some (Threw w2) /\
      w_trace w2 = w_trace w1 ++ [EvThrowTypeError "Invalid bucket iterator handle"].

(** [create_typed_error] never answers with an instance of the base class. *)
Definition base_never_instantiated (F : napi_faults) (w : world) : Prop :=
  forall c message,
    js_class_of (create_typed_error F w c message) <> Some "StorjError".

End Stated.
Export Stated.

(** ** Concrete states used in the examples below *)

Module Scenario.

(** A wrapper made for a project handle whose descriptor is at 4096; the
    wrapper block is at address 1. *)
Definition project_wrapper_world : world :=
  (create_handle_external no_faults 7 HANDLE_TYPE_PROJECT 4096 initial_world).2.

(** A bucket iterator handle as [list_buckets_create_complete] makes it:
    the iterator pointer 500 as the id, no descriptor; the wrapper block is
    at address 1. *)
Definition iterator_world : world :=
  (create_handle_external no_faults 500 HANDLE_TYPE_BUCKET_ITERATOR 0 initial_world).2.

(** The process after [initErrorClasses()] ran without any failure. *)
Definition registered_world : world :=
  (napi_init_error_classes no_faults [] initial_world).2.


(** A native read at the end of the stream: it delivers the last 3 bytes
    (fewer when fewer were asked for) together with the EOF error, whose
    code is -1 and whose message is NULL. *)
Definition eof_lib : Download.uplink_download_lib :=
  {| Download.uplink_download_read := fun _ len =>
       {| Download.UplinkReadResult.bytes_read := Z.min len 3;
          Download.UplinkReadResult.error :=
            Some (Uplink.Ptr 900 {| Uplink.code := -1; Uplink.message := None |}) |} |}.

(** The payload [download_read] queues for [downloadRead(handle, buffer, 10)]
    on download 7. *)
Definition download_read_payload : Download.DownloadReadData.t :=
  {| Download.DownloadReadData.download_handle := 7;
     Download.DownloadReadData.buffer_ptr := 64;
     Download.DownloadReadData.data_length := 10;
     Download.DownloadReadData.buffer_ref := Some 5;
     Download.DownloadReadData.result :=
       {| Download.UplinkReadResult.bytes_read := 0;
          Download.UplinkReadResult.error := None |};
     Download.DownloadReadData.deferred := 21;
     Download.DownloadReadData.work := 22 |}.

End Scenario.
Export Scenario.

(** ** The invariant of the registry *)

Module Invariant.

(** [g_registered] is set whenever an entry holds a constructor reference:
    the references are made by [napi_init_error_classes], which sets it
    after its loop, and removed by [error_registry_cleanup], which clears it. *)
Definition registry_clean (w : world) : Prop :=
  g_registered w = false ->
  Forall (fun e => constructor_ref e = None) (error_registry w).

(** The code and name columns of the registry are those of the static
    table: no function writes to them. *)
Definition registry_shape (w : world) : Prop :=
  map (fun e => (code e, name e)) (error_registry w)
  = map (fun e => (code e, name e)) error_registry_init.

(** The reference an entry holds refers to the constructor of the class
    the entry names. *)
Definition refs_named (w : world) : Prop :=
  Forall (fun e => forall r, constructor_ref e = Some r ->
                   w_refs w !! r = Some (JsFunction (name e)))
    (error_registry w).

Definition registry_ok (w : world) : Prop :=
  registry_shape w /\ registry_clean w /\ refs_named w.

End Invariant.
Export Invariant.

(** ** handle_helpers.c: the names of the handle kinds *)

Module HandleTypeNames.

(** [static const char* handle_type_names[]] *)
Definition handle_type_names : list string :=
  [ "Access"; "Project"; "Download"; "Upload"; "EncryptionKey"; "PartUpload";
    "ObjectIterator"; "BucketIterator"; "UploadIterator"; "PartIterator" ].

(** The integer value of an enumerator of [HandleType], in declaration order. *)
Definition HandleType_value (ty : HandleType) : Z :=
  match ty with
  | HANDLE_TYPE_ACCESS => 0
  | HANDLE_TYPE_PROJECT => 1
  | HANDLE_TYPE_DOWNLOAD => 2
  | HANDLE_TYPE_UPLOAD => 3
  | HANDLE_TYPE_ENCRYPTION_KEY => 4
  | HANDLE_TYPE_PART_UPLOAD => 5
  | HANDLE_TYPE_OBJECT_ITERATOR => 6
  | HANDLE_TYPE_BUCKET_ITERATOR => 7
  | HANDLE_TYPE_UPLOAD_ITERATOR => 8
  | HANDLE_TYPE_PART_ITERATOR => 9
  end.

(** [get_handle_type_name(type)] for any value of the enum's integer type. *)
Definition get_handle_type_name (type : Z) : string :=
  if decide (type >= 0 /\ type < Z.of_nat (length handle_type_names))
  then nth (Z.to_nat type) handle_type_names ""
  else "Unknown".

End HandleTypeNames.
Export HandleTypeNames.

(** ** string_helpers.c *)

Module StringHelpers.

(** The statuses these helpers return: those above and
    [napi_string_expected], which [napi_get_value_string_utf8] returns for
    a value that is not a string. *)
Inductive status :=
| Status (s : napi_status)
| napi_string_expected.

#[global] Instance status_eq_dec : EqDecision status.
Proof. solve_decision. Defined.

(** Which allocations fail: [oom p] says that the allocation asked for while
    [p] is the next free address returns NULL. *)
Definition alloc_oracle := positive -> bool.

(** [malloc] or [calloc]: NULL, or a new address. *)
Definition alloc (oom : alloc_oracle) (w : world) : option Z * world :=
  if oom (w_fresh w) then (None, w)
  else let (a, w1) := fresh w in (Some a, w1).

(** [free(p)] for a pointer that may be NULL; [free(NULL)] does nothing. *)
Definition free_opt {T : Type} (p : option (Uplink.ptr T)) (w : world) : world :=
  match p with
  | Some q => emit (EvFree (Uplink.addr q)) w
  | None => w
  end.

(** The bytes of a buffer read as a C string: those before the first NUL. *)
Fixpoint c_str (s : string) : string :=
  match s with
  | EmptyString => EmptyString
  | String c rest => if decide (c = Ascii.zero) then EmptyString else String c (c_str rest)
  end.

Definition strlen (s : string) : Z := Z.of_nat (String.length (c_str s)).

(** [snprintf(error_msg, sizeof(error_msg), ...)] into [char error_msg[256]]:
    at most 255 characters of the formatted text. *)
Definition snprintf_256 (text : string) : string := String.substring 0 255 text.

(** [extract_string(env, js_string, out_str)]: the status and [*out_str].
    [napi_get_value_string_utf8] fails for a value that is not a string and
    for no string, so the second call cannot fail after the first
    succeeded; the buffer holds the bytes of the string, which N-API
    terminates with a NUL. *)
Definition extract_string (oom : alloc_oracle) (js_string : js_value) (w : world)
  : status * option (Uplink.ptr string) * world :=
  match js_string with
  | JsString s =>
      match alloc oom w with
      | (None, w) => (Status napi_generic_failure, None, w)
      | (Some a, w) => (Status napi_ok, Some (Uplink.Ptr a s), w)
      end
  | _ => (napi_string_expected, None, w)
  end.

(** [extract_string_required(env, js_string, param_name, out_str)] *)
Definition extract_string_required (oom : alloc_oracle) (js_string : js_value)
    (param_name : string) (w : world) : status * option (Uplink.ptr string) * world :=
  let type := napi_typeof js_string in
  if decide (type = napi_undefined \/ type = napi_null) then
    let error_msg := snprintf_256 ("Parameter '" +:+ param_name +:+ "' is required") in
    (Status napi_invalid_arg, None, emit (EvThrowTypeError error_msg) w)
  else if decide (type <> napi_string) then
    let error_msg := snprintf_256 ("Parameter '" +:+ param_name +:+ "' must be a string") in
    (Status napi_invalid_arg, None, emit (EvThrowTypeError error_msg) w)
  else
    let '(st, out_str, w) := extract_string oom js_string w in
    if decide (st <> Status napi_ok) then (st, out_str, w)
    else
      match out_str with
      | Some p =>
          if decide (strlen (Uplink.deref p) = 0) then
            let error_msg :=
              snprintf_256 ("Parameter '" +:+ param_name +:+ "' cannot be empty") in
            let w := emit (EvThrowTypeError error_msg) w in
            (Status napi_invalid_arg, None, free_opt out_str w)
          else (Status napi_ok, out_str, w)
      | None =>
          let error_msg :=
            snprintf_256 ("Parameter '" +:+ param_name +:+ "' cannot be empty") in
          let w := emit (EvThrowTypeError error_msg) w in
          (Status napi_invalid_arg, None, free_opt out_str w)
      end.

(** [extract_string_optional(env, js_string, out_str)] *)
Definition extract_string_optional (oom : alloc_oracle) (js_string : js_value) (w : world)
  : status * option (Uplink.ptr string) * world :=
  let type := napi_typeof js_string in
  if decide (type = napi_undefined \/ type = napi_null) then (Status napi_ok, None, w)
  else extract_string oom js_string w.

(** The character classes of <ctype.h> in the "C" locale. *)
Definition isdigit (c : Ascii.ascii) : bool :=
  let n := Ascii.nat_of_ascii c in (48 <=? n)%nat && (n <=? 57)%nat.
Definition islower (c : Ascii.ascii) : bool :=
  let n := Ascii.nat_of_ascii c in (97 <=? n)%nat && (n <=? 122)%nat.
Definition isupper (c : Ascii.ascii) : bool :=
  let n := Ascii.nat_of_ascii c in (65 <=? n)%nat && (n <=? 90)%nat.
Definition isalnum (c : Ascii.ascii) : bool := isdigit c || islower c || isupper c.

(** The character '-'. *)
Definition hyphen : Ascii.ascii := Ascii.ascii_of_nat 45.

(** The loop of [validate_bucket_name]: false at the first character that
    is not a lowercase letter, a digit or a hyphen. *)
Fixpoint only_lowercase_digits_hyphens (chars : list Ascii.ascii) : bool :=
  match chars with
  | [] => true
  | c :: rest =>
      if negb (islower c) && negb (isdigit c) && negb (bool_decide (c = hyphen))
      then false
      else only_lowercase_digits_hyphens rest
  end.

(** [validate_bucket_name(bucket_name)] for a C string given by its
    characters ([None] for NULL). *)
Definition validate_bucket_name (bucket_name : option (list Ascii.ascii)) : Z :=
  match bucket_name with
  | None => 0
  | Some chars =>
      let len := length chars in
      if decide (len < 3 \/ 63 < len)%nat then 0
      else
        match chars !! 0%nat, chars !! (len - 1)%nat with
        | Some first, Some last =>
            if negb (isalnum first) || negb (isalnum last) then 0
            else if only_lowercase_digits_hyphens chars then 1 else 0
        | _, _ => 0
        end
  end.

(** [validate_object_key(object_key)] *)
Definition validate_object_key (object_key : option (list Ascii.ascii)) : Z :=
  match object_key with
  | None => 0
  | Some chars =>
      if decide (length chars = 0)%nat then 0
      else if decide (1024 < length chars)%nat then 0
      else 1
  end.

End StringHelpers.
Export StringHelpers.

(** ** bucket_ops.c: createBucket *)

Module BucketOps.

(** What an exported function left behind when it returned: NULL, with or
    without an exception thrown, or the promise of a work item queued over
    the payload at [data]. *)
Inductive entry_outcome (T : Type) :=
| ReturnedNull (w : world)
| Promised (data : Z) (work_data : T) (w : world).
Arguments ReturnedNull {T} _.
Arguments Promised {T} _ _ _.

(** [create_bucket(env, info)] called with the arguments [argv].  [None]
    where [extract_handle] has no defined behaviour. *)
Definition create_bucket (oom : alloc_oracle) (argv : list js_value) (w : world)
  : option (entry_outcome Bucket.BucketOpData.t) :=
  match argv with
  | a0 :: a1 :: _ =>
      match extract_handle w a0 HANDLE_TYPE_PROJECT with
      | None => None
      | Some (napi_ok, Some project_handle) =>
          let '(status, bucket_name, w) :=
            extract_string_required oom a1 "bucketName" w in
          if decide (status <> Status napi_ok) then Some (ReturnedNull w)
          else
            match alloc oom w with
            | (None, w) =>
                let w := free_opt bucket_name w in
                Some (ReturnedNull (emit (EvThrowError "Out of memory") w))
            | (Some data, w) =>
                let (deferred, w) := fresh w in
                let (work, w) := fresh w in
                Some (Promised data
                        {| Bucket.BucketOpData.project_handle := project_handle;
                           Bucket.BucketOpData.bucket_name := addr_of bucket_name;
                           Bucket.BucketOpData.result :=
                             {| Bucket.bucket := None; Bucket.error := None |};
                           Bucket.BucketOpData.deferred := deferred;
                           Bucket.BucketOpData.work := work |} w)
            end
      | Some _ => Some (ReturnedNull (emit (EvThrowTypeError "Invalid project handle") w))
      end
  | _ =>
      Some (ReturnedNull
              (emit (EvThrowTypeError "projectHandle and bucketName are required") w))
  end.

(** One whole [createBucket(argv)] call from JavaScript: the exported
    function and, when it queued work, the work item run to its completion. *)
Definition create_bucket_call (L : Bucket.uplink_bucket_lib) (oom : alloc_oracle)
    (F : napi_faults) (cancelled : bool) (argv : list js_value) (w : world) : option world :=
  match create_bucket oom argv w with
  | None => None
  | Some (ReturnedNull w1) => Some w1
  | Some (Promised data work_data w1) =>
      Some (run_async_work cancelled (Bucket.create_bucket_execute L)
              (Bucket.create_bucket_complete F) data work_data w1)
  end.

End BucketOps.
Export BucketOps.

(** ** Counting in a trace *)

Module TraceCount.

(** How often the block at [p] was freed. *)
Definition free_count (p : Z) (tr : list event) : nat :=
  length (List.filter (fun e => match e with
                                | EvFree q => bool_decide (q = p)
                                | _ => false
                                end) tr).


Definition is_native_call (e : event) : bool :=
  match e with
  | EvNative _ => true
  | _ => false
  end.

End TraceCount.
Export TraceCount.

(** ** bucket_ops.c, bucket_execute.c, bucket_complete.c: the other routines *)

Module BucketIterators.

Module ListBucketsCreateData.
Record t := {
  project_handle : Z;
  cursor : option (Uplink.ptr string);
  iterator_handle : Z;
  deferred : Z;
  work : Z
}.
End ListBucketsCreateData.

Module BucketIteratorNextData.
Record t := {
  iterator_handle : Z;
  has_next : bool;
  deferred : Z;
  work : Z
}.
End BucketIteratorNextData.

Module BucketIteratorItemData.
Record t := {
  iterator_handle : Z;
  bucket : option (Uplink.ptr Uplink.UplinkBucket);
  deferred : Z;
  work : Z
}.
End BucketIteratorItemData.

(** The uplink-c calls on bucket iterators whose result the binding uses:
    [uplink_list_buckets] as a function of the project id and the cursor
    ([None] when the options carry none), the other two as functions of the
    iterator pointer. *)
Record uplink_iterator_lib := {
  uplink_list_buckets : Z -> option string -> Z;
  uplink_bucket_iterator_next : Z -> bool;
  uplink_bucket_iterator_item : Z -> option (Uplink.ptr Uplink.UplinkBucket)
}.

(** [napi_resolve_deferred(env, deferred, value)] for a value that may be
    NULL: N-API refuses a NULL value and settles nothing. *)
Definition napi_resolve_deferred (deferred : Z) (value : option js_value) (w : world)
  : world :=
  match value with
  | Some v => emit (EvResolve deferred v) w
  | None => w
  end.



(** [list_buckets_create_complete(env, status, data)] *)
Definition list_buckets_create_complete (F : napi_faults) (status : napi_status) (data : Z)
    (work_data : ListBucketsCreateData.t) (w : world) : world :=
  let cleanup (w : world) : world :=
    let w := free_opt (ListBucketsCreateData.cursor work_data) w in
    let w := emit (EvDeleteAsyncWork (ListBucketsCreateData.work work_data)) w in
    emit (EvFree data) w in
  match REJECT_IF_CANCELLED status (ListBucketsCreateData.deferred work_data) w with
  | Some w => cleanup w
  | None =>
      if decide (ListBucketsCreateData.iterator_handle work_data = 0) then
        let msg := "Failed to create bucket iterator" in
        let error := napi_create_error msg in
        let w := emit (EvReject (ListBucketsCreateData.deferred work_data) error) w in
        cleanup w
      else
        let (handle_obj, w) :=
          create_handle_external F (ListBucketsCreateData.iterator_handle work_data)
            HANDLE_TYPE_BUCKET_ITERATOR 0 w in
        let w :=
          napi_resolve_deferred (ListBucketsCreateData.deferred work_data) handle_obj w in
        cleanup w
  end.

(** [bucket_iterator_next_execute(env, data)] *)
Definition bucket_iterator_next_execute (L : uplink_iterator_lib)
    (work_data : BucketIteratorNextData.t) (w : world) : BucketIteratorNextData.t * world :=
  ({| BucketIteratorNextData.iterator_handle :=
        BucketIteratorNextData.iterator_handle work_data;
      BucketIteratorNextData.has_next :=
        uplink_bucket_iterator_next L (BucketIteratorNextData.iterator_handle work_data);
      BucketIteratorNextData.deferred := BucketIteratorNextData.deferred work_data;
      BucketIteratorNextData.work := BucketIteratorNextData.work work_data |}, w).

(** [bucket_iterator_next_complete(env, status, data)] *)
Definition bucket_iterator_next_complete (status : napi_status) (data : Z)
    (work_data : BucketIteratorNextData.t) (w : world) : world :=
  let cleanup (w : world) : world :=
    let w := emit (EvDeleteAsyncWork (BucketIteratorNextData.work work_data)) w in
    emit (EvFree data) w in
  match REJECT_IF_CANCELLED status (BucketIteratorNextData.deferred work_data) w with
  | Some w => cleanup w
  | None =>
      let result := JsBoolean (BucketIteratorNextData.has_next work_data) in
      let w := emit (EvResolve (BucketIteratorNextData.deferred work_data) result) w in
      cleanup w
  end.

(** [bucket_iterator_item_execute(env, data)] *)
Definition bucket_iterator_item_execute (L : uplink_iterator_lib)
    (work_data : BucketIteratorItemData.t) (w : world) : BucketIteratorItemData.t * world :=
  ({| BucketIteratorItemData.iterator_handle :=
        BucketIteratorItemData.iterator_handle work_data;
      BucketIteratorItemData.bucket :=
        uplink_bucket_iterator_item L (BucketIteratorItemData.iterator_handle work_data);
      BucketIteratorItemData.deferred := BucketIteratorItemData.deferred work_data;
      BucketIteratorItemData.work := BucketIteratorItemData.work work_data |}, w).

(** [bucket_iterator_item_complete(env, status, data)] *)
Definition bucket_iterator_item_complete (status : napi_status) (data : Z)
    (work_data : BucketIteratorItemData.t) (w : world) : world :=
  let cleanup (w : world) : world :=
    let w := emit (EvDeleteAsyncWork (BucketIteratorItemData.work work_data)) w in
    emit (EvFree data) w in
  match REJECT_IF_CANCELLED status (BucketIteratorItemData.deferred work_data) w with
  | Some w => cleanup w
  | None =>
      let bucket_obj := Bucket.uplink_bucket_to_js (BucketIteratorItemData.bucket work_data) in
      let w :=
        match BucketIteratorItemData.bucket work_data with
        | Some b => emit (EvNative (uplink_free_bucket (Uplink.addr b))) w
        | None => w
        end in
      let w := emit (EvResolve (BucketIteratorItemData.deferred work_data) bucket_obj) w in
      cleanup w
  end.

(** [delete_bucket_complete(env, status, data)] *)
Definition delete_bucket_complete (F : napi_faults) (status : napi_status) (data : Z)
    (work_data : Bucket.BucketOpData.t) (w : world) : world :=
  let cleanup (w : world) : world :=
    let w := emit (EvFree (Bucket.BucketOpData.bucket_name work_data)) w in
    let w := emit (EvDeleteAsyncWork (Bucket.BucketOpData.work work_data)) w in
    emit (EvFree data) w in
  match REJECT_IF_CANCELLED status (Bucket.BucketOpData.deferred work_data) w with
  | Some w => cleanup w
  | None =>
      match Bucket.error (Bucket.BucketOpData.result work_data) with
      | Some e =>
          let err :=
            create_typed_error F w (Uplink.code (Uplink.deref e))
              (Uplink.message (Uplink.deref e)) in
          let w := emit (EvReject (Bucket.BucketOpData.deferred work_data) err) w in
          let w := emit (EvNative (uplink_free_error (Uplink.addr e))) w in
          cleanup w
      | None =>
          let w :=
            match Bucket.bucket (Bucket.BucketOpData.result work_data) with
            | Some b => emit (EvNative (uplink_free_bucket (Uplink.addr b))) w
            | None => w
            end in
          let undefined := JsUndefined in
          let w := emit (EvResolve (Bucket.BucketOpData.deferred work_data) undefined) w in
          cleanup w
      end
  end.

(** What N-API does when it collects an external made by
    [create_handle_external]: it calls the finalizer, [handle_destructor],
    with the external's data pointer. *)
Definition finalize_external (v : js_value) (w : world) : option world :=
  match v with
  | JsExternal data => handle_destructor data w
  | _ => Some w
  end.

End BucketIterators.
Export BucketIterators.

(** ** type_converters.c and download_ops.c: downloadObject *)

Module DownloadOps.



(** [throw_type_error(env, message)] and [throw_error(env, message)] of
    result_helpers.c: they throw and return NULL. *)
Definition throw_type_error (message : string) (w : world) : world :=
  emit (EvThrowTypeError message) w.

Definition throw_error (message : string) (w : world) : world :=
  emit (EvThrowError message) w.





End DownloadOps.
Export DownloadOps.

(** ** buffer_helpers.c *)

Module BufferHelpers.

(** [safe_memcpy(dest, dest_size, src, src_len)] on the bytes at [dest] and
    at [src] ([None] for NULL): the count it returns and the bytes at
    [dest] afterwards.  [memcpy] is defined when both blocks hold the [n]
    bytes it is asked to copy, which the statements about it assume. *)
Definition safe_memcpy (dest : option (list Z)) (dest_size : Z)
    (src : option (list Z)) (src_len : Z) : Z * option (list Z) :=
  match dest, src with
  | Some d, Some s =>
      if decide (dest_size = 0) then (0, dest)
      else
        let n := if decide (src_len <= dest_size) then src_len else dest_size in
        (n, Some (take (Z.to_nat n) s ++ drop (Z.to_nat n) d))
  | _, _ => (0, dest)
  end.

End BufferHelpers.
Export BufferHelpers.

(** ** debug_ops.c: testThrowTypedError *)

Module DebugOps.

Module TestThrowData.
Record t := {
  error_code : Z;
  error_message : option (Uplink.ptr string);
  deferred : Z;
  work : Z
}.
End TestThrowData.

(** [napi_get_value_int32] on a number: the bottom 32 bits, as a signed
    integer. *)
Definition to_int32 (z : Z) : Z :=
  let m := z mod 2 ^ 32 in
  if decide (m < 2 ^ 31) then m else m - 2 ^ 32.

(** [test_throw_typed_error(env, info)] called with the arguments [argv].
    The function ignores the status of [napi_get_value_int32] and of
    [napi_get_value_string_utf8]; [None] where it then reads a variable
    that was never written: a first argument that is not a number, a second
    that is not a string. *)
Definition test_throw_typed_error (oom : alloc_oracle) (argv : list js_value) (w : world)
  : option (entry_outcome TestThrowData.t) :=
  match argv with
  | a0 :: a1 :: _ =>
      match a0, a1 with
      | JsNumber code, JsString message =>
          let error_code := to_int32 code in
          match alloc oom w with
          | (None, w) => Some (ReturnedNull (emit (EvThrowError "Out of memory") w))
          | (Some a, w) =>
              let error_message := Some (Uplink.Ptr a message) in
              match alloc oom w with
              | (None, w) =>
                  let w := free_opt error_message w in
                  Some (ReturnedNull (emit (EvThrowError "Out of memory") w))
              | (Some data, w) =>
                  let (deferred, w) := fresh w in
                  let (work, w) := fresh w in
                  Some (Promised data
                          {| TestThrowData.error_code := error_code;
                             TestThrowData.error_message := error_message;
                             TestThrowData.deferred := deferred;
                             TestThrowData.work := work |} w)
              end
          end
      | _, _ => None
      end
  | _ =>
      Some (ReturnedNull
              (emit (EvThrowTypeError
                       "testThrowTypedError requires 2 arguments: code (number), message (string)")
                 w))
  end.

(** [test_throw_execute(env, data)]: nothing happens on the worker thread. *)
Definition test_throw_execute (work_data : TestThrowData.t) (w : world)
  : TestThrowData.t * world := (work_data, w).

(** [test_throw_complete(env, status, data)].  The message is handed to
    [create_typed_error] as a C string. *)
Definition test_throw_complete (F : napi_faults) (status : napi_status) (data : Z)
    (work_data : TestThrowData.t) (w : world) : world :=
  let cleanup (w : world) : world :=
    let w := free_opt (TestThrowData.error_message work_data) w in
    let w := emit (EvDeleteAsyncWork (TestThrowData.work work_data)) w in
    emit (EvFree data) w in
  if decide (status = napi_cancelled) then
    let msg := "Operation cancelled" in
    let error := napi_create_error msg in
    let w := emit (EvReject (TestThrowData.deferred work_data) error) w in
    cleanup w
  else
    let message :=
      match TestThrowData.error_message work_data with
      | Some p => Some (c_str (Uplink.deref p))
      | None => None
      end in
    let typed_error := create_typed_error F w (TestThrowData.error_code work_data) message in
    let w := emit (EvReject (TestThrowData.deferred work_data) typed_error) w in
    cleanup w.

(** One whole [testThrowTypedError(argv)] call from JavaScript. *)
Definition test_throw_typed_error_call (oom : alloc_oracle) (F : napi_faults)
    (cancelled : bool) (argv : list js_value) (w : world) : option world :=
  match test_throw_typed_error oom argv w with
  | None => None
  | Some (ReturnedNull w1) => Some w1
  | Some (Promised data work_data w1) =>
      Some (run_async_work cancelled test_throw_execute (test_throw_complete F)
              data work_data w1)
  end.

Definition is_resolution (e : event) : bool :=
  match e with
  | EvResolve _ _ => true
  | _ => false
  end.

End DebugOps.
Export DebugOps.

(** ** One whole listBucketsCreate call *)

Module BucketIteratorCalls.


End BucketIteratorCalls.
Export BucketIteratorCalls.

(** ** Concrete libraries and payloads used in the examples below *)

Module Examples.

(** No allocation fails. *)
Definition never_oom : alloc_oracle := fun _ => false.

(** The script with the error classes cannot be run. *)
Definition script_fault : napi_faults :=
  {| malloc_fails := false; calloc_fails := false;
     create_external_fails := false; get_global_fails := false;
     get_named_property_fails := fun _ => false;
     create_string_fails := false; run_script_fails := true;
     call_function_fails := false;
     create_reference_fails := fun _ => false;
     get_reference_value_fails := fun _ => false;
     new_instance_fails := fun _ => false |}.

(** uplink-c creates every bucket asked for. *)
Definition creating_lib : Bucket.uplink_bucket_lib :=
  {| Bucket.uplink_create_bucket := fun _ _ =>
       {| Bucket.bucket :=
            Some (Uplink.Ptr 600 {| Uplink.name := "photos"; Uplink.created := 1700000000 |});
          Bucket.error := None |};
     Bucket.uplink_bucket_iterator_err := fun _ => None |}.


(** The payload of a [listBucketsCreate] whose worker got the iterator 500. *)
Definition list_payload : ListBucketsCreateData.t :=
  {| ListBucketsCreateData.project_handle := 7;
     ListBucketsCreateData.cursor := None;
     ListBucketsCreateData.iterator_handle := 500;
     ListBucketsCreateData.deferred := 21;
     ListBucketsCreateData.work := 22 |}.



End Examples.
Export Examples.

(** * Properties *)


(** ** The cancellation macro and the trace *)

Section MacroLemmas.

Lemma REJECT_IF_CANCELLED_cancelled deferred w :
  REJECT_IF_CANCELLED napi_cancelled deferred w
  = Some (emit (EvReject deferred (napi_create_error "Operation cancelled")) w).
Proof.
  unfold REJECT_IF_CANCELLED.
  destruct (decide (napi_cancelled = napi_cancelled)); [reflexivity | contradiction].
Qed.

Lemma REJECT_IF_CANCELLED_other status deferred w :
  status <> napi_cancelled -> REJECT_IF_CANCELLED status deferred w = None.
Proof.
  intros H. unfold REJECT_IF_CANCELLED.
  destruct (decide (status = napi_cancelled)); [contradiction | reflexivity].
Qed.

Lemma napi_ok_not_cancelled : napi_ok <> napi_cancelled.
Proof. discriminate. Qed.

Lemma w_trace_emit e w : w_trace (emit e w) = w_trace w ++ [e].
Proof. reflexivity. Qed.

End MacroLemmas.

(** Rewrites the cancellation check away once the status is known and
    brings the trace of the resulting world into the form [old ++ new]. *)
Ltac settle_status :=
  rewrite ?REJECT_IF_CANCELLED_cancelled;
  rewrite ?(REJECT_IF_CANCELLED_other napi_ok) by exact napi_ok_not_cancelled;
  try match goal with
      | H : ?st <> napi_cancelled |- _ => rewrite ?(REJECT_IF_CANCELLED_other st) by exact H
      end.

Ltac flatten_trace := cbn; rewrite <- ?app_assoc; cbn.

(** Closes a goal [w_trace (emit .. (emit .. w)) = w_trace w ++ [..]]. *)
Ltac trace_eq :=
  unfold throw_error, throw_type_error, free_opt, emit;
  cbn [w_trace set_fresh set_heap set_refs Uplink.addr];
  rewrite <- ?app_assoc; reflexivity.

(** ** Handles *)

Section HandleProperties.

Implicit Types (w : world) (ty : HandleType) (F : napi_faults).

(** A successful [create_handle_external] returns an external whose data is
    a fresh, non-NULL address holding exactly the three fields given. *)
Lemma create_handle_external_Some F n ty p w v w' :
  create_handle_external F n ty p w = (Some v, w') ->
  v = JsExternal (Z.pos (w_fresh w)) /\
  w_heap w' !! Z.pos (w_fresh w)
    = Some {| block_contents := {| type := ty; handle := n; native_ptr := p |};
              block_live := true |} /\
  w_trace w' = w_trace w.
Proof.
  unfold create_handle_external, fresh.
  destruct (malloc_fails F); [discriminate |].
  destruct (create_external_fails F); [discriminate |].
  intros [= <- <-]. cbn. split; [reflexivity |]. split; [| reflexivity].
  apply lookup_insert_eq.
Qed.

(** What [extract_handle] answers for an external over a known block. *)
Lemma extract_handle_block w data b ty :
  data <> 0 ->
  w_heap w !! data = Some b ->
  extract_handle w (JsExternal data) ty =
    if decide (type (block_contents b) <> ty) then Some (napi_invalid_arg, None)
    else if decide (handle (block_contents b) = 0) then Some (napi_invalid_arg, None)
    else Some (napi_ok, Some (handle (block_contents b))).
Proof.
  intros Hdata Hb. unfold extract_handle. cbn.
  destruct (decide (napi_ok <> napi_ok \/ data = 0)) as [[H | H] | _];
    [congruence | contradiction |].
  rewrite Hb. reflexivity.
Qed.

(** C1. A handle made by [create_handle_external] from a native id [n]
    other than 0 and a kind [K] is extracted with expected kind [K] as [n]
    with status [napi_ok]; with any other expected kind the extraction
    returns [napi_invalid_arg] and stores no id. *)
Theorem extract_create_roundtrip F (K : HandleType) (n p : Z) w v w' :
  n <> 0 ->
  create_handle_external F n K p w = (Some v, w') ->
  extract_handle w' v K = Some (napi_ok, Some n) /\
  forall K', K' <> K -> extract_handle w' v K' = Some (napi_invalid_arg, None).
Proof.
  intros Hn Hcreate.
  destruct (create_handle_external_Some _ _ _ _ _ _ _ Hcreate) as (-> & Hblock & _).
  assert (Hnz : Z.pos (w_fresh w) <> 0) by lia.
  split.
  - rewrite (extract_handle_block _ _ _ _ Hnz Hblock). cbn.
    destruct (decide (K <> K)) as [Hne | _]; [congruence |].
    destruct (decide (n = 0)); [contradiction | reflexivity].
  - intros K' HK'.
    rewrite (extract_handle_block _ _ _ _ Hnz Hblock). cbn.
    destruct (decide (K <> K')) as [_ | Heq]; [reflexivity |].
    exfalso. apply HK'. destruct (decide (K = K')) as [-> | Hd]; [reflexivity | contradiction].
Qed.

Lemma extract_create_roundtrip_witness :
  let r := create_handle_external no_faults 7 HANDLE_TYPE_PROJECT 4096 initial_world in
  r.1 = Some (JsExternal 1) /\
  extract_handle r.2 (JsExternal 1) HANDLE_TYPE_PROJECT = Some (napi_ok, Some 7) /\
  extract_handle r.2 (JsExternal 1) HANDLE_TYPE_ACCESS = Some (napi_invalid_arg, None).
Proof.
  cbv zeta.
  pose proof (extract_create_roundtrip no_faults HANDLE_TYPE_PROJECT 7 4096 initial_world
                (JsExternal 1)
                (create_handle_external no_faults 7 HANDLE_TYPE_PROJECT 4096 initial_world).2
                ltac:(lia) eq_refl) as [Hsame Hother].
  split; [reflexivity |]. split; [exact Hsame |].
  apply Hother. discriminate.
Defined.

(** C6. A wrapper whose stored native id is 0 is never extracted: whatever
    kind is expected, also the wrapper's own, [extract_handle] returns
    [napi_invalid_arg] and stores no id; this holds in particular for a
    handle made by [create_handle_external] from the id 0, and
    [validate_handle] rejects 0. *)
Theorem extract_zero_handle_invalid :
  (forall w data b ty,
      data <> 0 ->
      w_heap w !! data = Some b ->
      handle (block_contents b) = 0 ->
      extract_handle w (JsExternal data) ty = Some (napi_invalid_arg, None)) /\
  (forall F (K : HandleType) (p : Z) w v w',
      create_handle_external F 0 K p w = (Some v, w') ->
      extract_handle w' v K = Some (napi_invalid_arg, None)) /\
  validate_handle 0 = 0.
Proof.
  assert (Hgen : forall w data b ty,
      data <> 0 -> w_heap w !! data = Some b -> handle (block_contents b) = 0 ->
      extract_handle w (JsExternal data) ty = Some (napi_invalid_arg, None)).
  { intros w data b ty Hdata Hb Hzero.
    rewrite (extract_handle_block _ _ _ _ Hdata Hb), Hzero.
    destruct (decide (type (block_contents b) <> ty)); reflexivity. }
  split; [exact Hgen |]. split; [| reflexivity].
  intros F K p w v w' Hcreate.
  destruct (create_handle_external_Some _ _ _ _ _ _ _ Hcreate) as (-> & Hblock & _).
  assert (Hnz : Z.pos (w_fresh w) <> 0) by lia.
  apply (Hgen _ _ _ _ Hnz Hblock). reflexivity.
Qed.

Lemma extract_zero_handle_invalid_witness :
  let r := create_handle_external no_faults 0 HANDLE_TYPE_UPLOAD 4096 initial_world in
  extract_handle r.2 (JsExternal 1) HANDLE_TYPE_UPLOAD = Some (napi_invalid_arg, None).
Proof.
  cbv zeta.
  exact (proj1 (proj2 extract_zero_handle_invalid) no_faults HANDLE_TYPE_UPLOAD 4096
           initial_world (JsExternal 1)
           (create_handle_external no_faults 0 HANDLE_TYPE_UPLOAD 4096 initial_world).2
           eq_refl).
Defined.

End HandleProperties.

(** ** Releasing a handle *)

Section ReleaseProperties.

Implicit Types (w : world) (ty : HandleType) (F : napi_faults).

Lemma native_release_count_app tr1 tr2 :
  native_release_count (tr1 ++ tr2)
  = (native_release_count tr1 + native_release_count tr2)%nat.
Proof. unfold native_release_count. rewrite List.filter_app, length_app. reflexivity. Qed.

(** [free_native_resource] appends the release call of an owning kind and
    nothing for an iterator kind. *)
Lemma free_native_resource_trace ty p w :
  exists rel,
    w_trace (free_native_resource ty p w) = w_trace w ++ rel /\
    w_heap (free_native_resource ty p w) = w_heap w /\
    if owning_kind ty
    then exists c, rel = [EvNative c] /\ released_by c = Some (ty, p)
    else rel = [].
Proof.
  destruct ty; cbn;
    first [ by (eexists; split; [reflexivity |]; split; [reflexivity |];
                eexists; split; reflexivity)
          | by (exists []; rewrite app_nil_r) ].
Qed.

(** C5, as stated, fails: after [handle_destructor] ran on the wrapper at
    address 1 its [native_ptr] still holds 4096, and a second run over the
    same wrapper calls [uplink_free_project_result] a second time. *)
Lemma double_release_counterexample :
  ~ release_nulls_native_ptr 1 project_wrapper_world /\
  ~ released_at_most_once 1 project_wrapper_world.
Proof.
  assert (H1 : exists w1, handle_destructor 1 project_wrapper_world = Some w1 /\
             w_heap w1 !! 1
             = Some {| block_contents :=
                         {| type := HANDLE_TYPE_PROJECT; handle := 7; native_ptr := 4096 |};
                       block_live := false |} /\
             w_trace w1 = [EvNative (uplink_free_project_result 4096)] /\
             exists w2, handle_destructor 1 w1 = Some w2 /\
               w_trace w2 = [EvNative (uplink_free_project_result 4096);
                             EvNative (uplink_free_project_result 4096)]).
  { eexists. split; [vm_compute; reflexivity |]. split; [vm_compute; reflexivity |].
    split; [vm_compute; reflexivity |].
    eexists. split; vm_compute; reflexivity. }
  destruct H1 as (w1 & Hd1 & Hheap & Htr1 & w2 & Hd2 & Htr2).
  split.
  - intros Hnull. destruct (Hnull w1 Hd1) as (b & Hb & Hzero).
    rewrite Hheap in Hb. injection Hb as <-. cbn in Hzero. discriminate.
  - intros Honce. specialize (Honce w1 w2 Hd1 Hd2).
    rewrite Htr2 in Honce. vm_compute in Honce. lia.
Qed.

(** C5, amended.  One run of [handle_destructor] on a wrapper block calls
    the release routine of the wrapper's kind on its descriptor exactly
    once when the kind is an owning kind and [native_ptr] is not NULL, and
    calls nothing otherwise; it then frees the block, whose fields,
    [native_ptr] included, are left as they were. *)
Theorem handle_destructor_releases_once w data b :
  data <> 0 ->
  w_heap w !! data = Some b ->
  exists w1 rel,
    handle_destructor data w = Some w1 /\
    w_trace w1 = w_trace w ++ rel /\
    (if owning_kind (type (block_contents b)) && negb (bool_decide (native_ptr (block_contents b) = 0))
     then exists c, rel = [EvNative c] /\
            released_by c = Some (type (block_contents b), native_ptr (block_contents b))
     else rel = []) /\
    (native_release_count rel <= 1)%nat /\
    w_heap w1 !! data
    = Some {| block_contents := block_contents b; block_live := false |}.
Proof.
  intros Hdata Hb. unfold handle_destructor.
  destruct (decide (data = 0)) as [? | _]; [contradiction |].
  rewrite Hb.
  set (ty := type (block_contents b)).
  set (p := native_ptr (block_contents b)).
  destruct (decide (p = 0)) as [Hp | Hp].
  - exists (free_wrapper data w), [].
    split; [reflexivity |].
    unfold free_wrapper. rewrite Hb. cbn.
    split; [by rewrite app_nil_r |].
    split; [rewrite (bool_decide_eq_true_2 _ Hp), andb_false_r; reflexivity |].
    split; [lia |]. apply lookup_insert_eq.
  - destruct (free_native_resource_trace ty p w) as (rel & Htr & Hheap & Hrel).
    exists (free_wrapper data (free_native_resource ty p w)), rel.
    split; [reflexivity |].
    unfold free_wrapper. rewrite Hheap, Hb. cbn.
    split; [exact Htr |].
    rewrite (bool_decide_eq_false_2 _ Hp), andb_true_r. cbn.
    split; [exact Hrel |].
    split; [| apply lookup_insert_eq].
    destruct (owning_kind ty).
    + destruct Hrel as (c & -> & Hc). unfold native_release_count. cbn.
      destruct (bool_decide (is_Some (released_by c))); cbn; lia.
    + subst rel. cbn. lia.
Qed.

Lemma handle_destructor_releases_once_witness :
  exists w1 rel,
    handle_destructor 1 project_wrapper_world = Some w1 /\
    w_trace w1 = w_trace project_wrapper_world ++ rel /\
    (exists c, rel = [EvNative c] /\ released_by c = Some (HANDLE_TYPE_PROJECT, 4096)) /\
    (native_release_count rel <= 1)%nat /\
    w_heap w1 !! 1
    = Some {| block_contents :=
                {| type := HANDLE_TYPE_PROJECT; handle := 7; native_ptr := 4096 |};
              block_live := false |}.
Proof.
  assert (Hnz : (1 : Z) <> 0) by lia.
  exact (handle_destructor_releases_once project_wrapper_world 1
           {| block_contents :=
                {| type := HANDLE_TYPE_PROJECT; handle := 7; native_ptr := 4096 |};
              block_live := true |} Hnz eq_refl).
Defined.

End ReleaseProperties.

(** ** Freeing an iterator *)

Section IteratorProperties.

Implicit Types (w : world) (F : napi_faults).

(** [extract_handle] reads the wrapper blocks and nothing else. *)
Lemma extract_handle_heap w1 w2 v ty :
  w_heap w1 = w_heap w2 -> extract_handle w1 v ty = extract_handle w2 v ty.
Proof. intros H. unfold extract_handle. rewrite H. reflexivity. Qed.

Lemma iterator_free_count_app it tr1 tr2 :
  iterator_free_count it (tr1 ++ tr2)
  = (iterator_free_count it tr1 + iterator_free_count it tr2)%nat.
Proof. unfold iterator_free_count. rewrite List.filter_app, length_app. reflexivity. Qed.

(** What one whole [freeBucketIterator(v)] does when [v] is extracted as
    the iterator [h]. *)
Lemma free_bucket_iterator_call_ok F cancelled v h w :
  extract_handle w v HANDLE_TYPE_BUCKET_ITERATOR = Some (napi_ok, Some h) ->
  exists w1,
    Bucket.free_bucket_iterator_call F cancelled [v] w = Some w1 /\
    w_heap w1 = w_heap w /\
    (calloc_fails F = false -> cancelled = false ->
     w_trace w1 = w_trace w ++
       [ EvNative (uplink_free_bucket_iterator h);
         EvResolve (Z.pos (Pos.succ (w_fresh w))) JsUndefined;
         EvDeleteAsyncWork (Z.pos (Pos.succ (Pos.succ (w_fresh w))));
         EvFree (Z.pos (w_fresh w)) ]).
Proof.
  intros Hext.
  unfold Bucket.free_bucket_iterator_call, Bucket.free_bucket_iterator.
  rewrite Hext.
  destruct (calloc_fails F).
  - eexists. split; [reflexivity |]. split; [reflexivity | discriminate].
  - cbn. destruct cancelled; cbn.
    + eexists. split; [reflexivity |]. split; [reflexivity | discriminate].
    + eexists. split; [reflexivity |]. split; [reflexivity |].
      intros _ _. unfold Bucket.free_bucket_iterator_complete.
      settle_status. flatten_trace. reflexivity.
Qed.

(** C7, as stated, fails: after one whole [freeBucketIterator(v)] on the
    iterator handle [v], a second [freeBucketIterator(v)] does not throw
    the invalid-handle error; it queues the work again, and the two calls
    together call [uplink_free_bucket_iterator(500)] twice. *)
Lemma second_free_counterexample :
  ~ second_free_rejected no_faults (JsExternal 1) iterator_world /\
  (exists w1 w2,
      Bucket.free_bucket_iterator_call no_faults false [JsExternal 1] iterator_world = Some w1 /\
      Bucket.free_bucket_iterator_call no_faults false [JsExternal 1] w1 = Some w2 /\
      iterator_free_count 500 (w_trace w2) = 2%nat).
Proof.
  split.
  - intros Hrej.
    destruct (Hrej _ eq_refl) as (w2 & Hthrew & _).
    vm_compute in Hthrew. discriminate.
  - eexists. eexists. split; [reflexivity |]. split; [reflexivity |].
    vm_compute. reflexivity.
Qed.

(** C7, amended.  [freeBucketIterator] leaves the handle's wrapper as it
    was: when a handle value is extracted as the bucket iterator [h], it is
    extracted as [h] again after one whole [freeBucketIterator] call, and a
    second [freeBucketIterator] of the same value, when neither call runs
    out of memory or is cancelled, calls [uplink_free_bucket_iterator(h)] a
    second time. *)
Theorem free_bucket_iterator_keeps_handle F v h w :
  extract_handle w v HANDLE_TYPE_BUCKET_ITERATOR = Some (napi_ok, Some h) ->
  (forall cancelled, exists w1,
      Bucket.free_bucket_iterator_call F cancelled [v] w = Some w1 /\
      extract_handle w1 v HANDLE_TYPE_BUCKET_ITERATOR = Some (napi_ok, Some h)) /\
  (calloc_fails F = false ->
   exists w1 w2,
     Bucket.free_bucket_iterator_call F false [v] w = Some w1 /\
     Bucket.free_bucket_iterator_call F false [v] w1 = Some w2 /\
     iterator_free_count h (w_trace w2) = (iterator_free_count h (w_trace w) + 2)%nat).
Proof.
  intros Hext. split.
  - intros cancelled.
    destruct (free_bucket_iterator_call_ok F cancelled v h w Hext) as (w1 & Hcall & Hheap & _).
    exists w1. split; [exact Hcall |].
    rewrite (extract_handle_heap w1 w _ _ Hheap). exact Hext.
  - intros Hcalloc.
    destruct (free_bucket_iterator_call_ok F false v h w Hext) as (w1 & Hcall1 & Hheap1 & Htr1).
    assert (Hext1 : extract_handle w1 v HANDLE_TYPE_BUCKET_ITERATOR = Some (napi_ok, Some h)).
    { rewrite (extract_handle_heap w1 w _ _ Hheap1). exact Hext. }
    destruct (free_bucket_iterator_call_ok F false v h w1 Hext1) as (w2 & Hcall2 & _ & Htr2).
    exists w1, w2. split; [exact Hcall1 |]. split; [exact Hcall2 |].
    rewrite (Htr2 Hcalloc eq_refl), (Htr1 Hcalloc eq_refl).
    rewrite !iterator_free_count_app.
    unfold iterator_free_count at 2 3. cbn.
    rewrite (bool_decide_eq_true_2 (h = h) eq_refl). cbn. lia.
Qed.

Lemma free_bucket_iterator_keeps_handle_witness :
  (forall cancelled, exists w1,
      Bucket.free_bucket_iterator_call no_faults cancelled [JsExternal 1] iterator_world
        = Some w1 /\
      extract_handle w1 (JsExternal 1) HANDLE_TYPE_BUCKET_ITERATOR = Some (napi_ok, Some 500)) /\
  (calloc_fails no_faults = false ->
   exists w1 w2,
     Bucket.free_bucket_iterator_call no_faults false [JsExternal 1] iterator_world = Some w1 /\
     Bucket.free_bucket_iterator_call no_faults false [JsExternal 1] w1 = Some w2 /\
     iterator_free_count 500 (w_trace w2)
     = (iterator_free_count 500 (w_trace iterator_world) + 2)%nat).
Proof.
  exact (free_bucket_iterator_keeps_handle no_faults (JsExternal 1) 500 iterator_world eq_refl).
Defined.

End IteratorProperties.

(** ** Completion routines: cleanup *)

Section CleanupProperties.

Implicit Types (w : world) (F : napi_faults) (status : napi_status).

(** The [cleanup:] block of [create_bucket_complete]. *)
Lemma create_bucket_complete_cleanup F status data wd w :
  exists body,
    w_trace (Bucket.create_bucket_complete F status data wd w)
    = w_trace w ++ body ++
        [ EvFree (Bucket.BucketOpData.bucket_name wd);
          EvDeleteAsyncWork (Bucket.BucketOpData.work wd);
          EvFree data ] /\
    List.filter is_cleanup_event body = [] /\
    length (List.filter is_settlement body) = 1%nat.
Proof.
  unfold Bucket.create_bucket_complete.
  destruct (decide (status = napi_cancelled)) as [-> | Hst].
  - settle_status.
    exists [EvReject (Bucket.BucketOpData.deferred wd) (napi_create_error "Operation cancelled")].
    split; [flatten_trace; reflexivity |]. split; reflexivity.
  - settle_status.
    destruct (Bucket.error (Bucket.BucketOpData.result wd)) as [e |].
    + eexists [EvReject _ _; EvNative _].
      split; [flatten_trace; reflexivity |]. split; reflexivity.
    + eexists [EvNative _; EvResolve _ _].
      split; [flatten_trace; reflexivity |]. split; reflexivity.
Qed.





End CleanupProperties.

(** ** Completion routines: cancellation *)

Section CancellationProperties.

Implicit Types (w : world) (F : napi_faults).

(** C4. A completion routine called with [napi_cancelled] rejects the
    promise with a plain Error whose message is "Operation cancelled" and
    then runs its whole cleanup block.  The check is the first thing the
    routine does: what it does is the same whatever the result fields of
    the payload hold, whatever the state of the error class registry is and
    whichever N-API calls would fail; and N-API does not run the worker of
    a cancelled work item. *)
Theorem cancelled_completion_rejects_then_cleans :
  (forall deferred w,
      REJECT_IF_CANCELLED napi_cancelled deferred w
      = Some (emit (EvReject deferred
                      (JsObject "Error" [("message", JsString "Operation cancelled")])) w)) /\
  (forall F data wd w,
      w_trace (Bucket.create_bucket_complete F napi_cancelled data wd w)
      = w_trace w ++
          [ EvReject (Bucket.BucketOpData.deferred wd)
              (JsObject "Error" [("message", JsString "Operation cancelled")]);
            EvFree (Bucket.BucketOpData.bucket_name wd);
            EvDeleteAsyncWork (Bucket.BucketOpData.work wd);
            EvFree data ]) /\
  (forall F F' data wd wd' w,
      Bucket.BucketOpData.bucket_name wd = Bucket.BucketOpData.bucket_name wd' ->
      Bucket.BucketOpData.deferred wd = Bucket.BucketOpData.deferred wd' ->
      Bucket.BucketOpData.work wd = Bucket.BucketOpData.work wd' ->
      Bucket.create_bucket_complete F napi_cancelled data wd w
      = Bucket.create_bucket_complete F' napi_cancelled data wd' w) /\
  (forall F data wd w registered entries,
      w_trace (Bucket.create_bucket_complete F napi_cancelled data wd
                 (set_registered registered (set_registry entries w)))
      = w_trace (Bucket.create_bucket_complete F napi_cancelled data wd w)) /\
  (forall F data wd w,
      exists w',
        Download.download_object_complete F napi_cancelled data wd w = Some w' /\
        w_trace w'
        = w_trace w ++
            [ EvReject (Download.DownloadObjectData.deferred wd)
                (JsObject "Error" [("message", JsString "Operation cancelled")]);
              EvFree (Download.DownloadObjectData.bucket_name wd);
              EvFree (Download.DownloadObjectData.object_key wd);
              EvDeleteAsyncWork (Download.DownloadObjectData.work wd);
              EvFree data ]) /\
  (forall L F data wd w,
      run_async_work true (Bucket.create_bucket_execute L) (Bucket.create_bucket_complete F)
        data wd w
      = Bucket.create_bucket_complete F napi_cancelled data wd w).
Proof.
  split; [intros; apply REJECT_IF_CANCELLED_cancelled |].
  split.
  { intros. unfold Bucket.create_bucket_complete. settle_status.
    flatten_trace. reflexivity. }
  split.
  { intros F F' data wd wd' w Hname Hdeferred Hwork.
    unfold Bucket.create_bucket_complete. settle_status.
    rewrite Hname, Hdeferred, Hwork. reflexivity. }
  split.
  { intros. unfold Bucket.create_bucket_complete. settle_status. reflexivity. }
  split.
  { intros. unfold Download.download_object_complete. settle_status.
    eexists. split; [reflexivity |]. flatten_trace. reflexivity. }
  intros. reflexivity.
Qed.

End CancellationProperties.

(** ** bucketIteratorErr *)

Section IteratorErrProperties.

Implicit Types (w : world) (F : napi_faults).





End IteratorErrProperties.

(** ** Typed errors are objects *)

Section ObjectLemmas.

Lemma props_get_set key v props : props_get key (props_set key v props) = Some v.
Proof.
  induction props as [| [k x] rest IH]; cbn.
  - destruct (decide (key = key)); [reflexivity | contradiction].
  - destruct (decide (k = key)) as [-> | Hne]; cbn.
    + destruct (decide (key = key)); [reflexivity | contradiction].
    + destruct (decide (k = key)); [contradiction | exact IH].
Qed.

Lemma js_get_set_object cls props key v :
  js_get (napi_set_named_property (JsObject cls props) key v) key = v.
Proof. cbn. rewrite props_get_set. reflexivity. Qed.

Lemma js_new_object cls arg inst :
  js_new cls arg = Some inst -> exists props, inst = JsObject cls props.
Proof.
  unfold js_new. destruct (decide (cls = "StorjError")).
  - intros [= <-]. eexists. reflexivity.
  - destruct (list_find _ ERROR_CLASSES_JS) as [[i [cname [title c]]] |]; [| discriminate].
    intros [= <-]. eexists. reflexivity.
Qed.

Lemma fallback_error_object c message :
  fallback_error c message
  = JsObject "Error"
      [ ("message", JsString (default "Unknown error" message));
        ("code", JsNumber c);
        ("name", JsString (get_error_name c)) ].
Proof. reflexivity. Qed.

(** [create_typed_error] answers with an instance made by a constructor of
    the hierarchy or with the plain fallback Error; in both cases with an
    object. *)
Lemma create_typed_error_cases F w c message :
  create_typed_error F w c message = fallback_error c message \/
  exists r cls,
    g_registered w = true /\
    find_error_constructor_ref w c = Some r /\
    w_refs w !! r = Some (JsFunction cls) /\
    js_new cls message = Some (create_typed_error F w c message).
Proof.
  unfold create_typed_error.
  destruct (g_registered w); [| left; reflexivity].
  destruct (find_error_constructor_ref w c) as [r |]; [| left; reflexivity].
  unfold napi_get_reference_value.
  destruct (get_reference_value_fails F r); [left; reflexivity |].
  destruct (w_refs w !! r) as [ctor |] eqn:Hr; [| left; reflexivity].
  destruct ctor as [| | | | | cls | |]; try (left; reflexivity).
  cbn. destruct (new_instance_fails F cls); [left; reflexivity |].
  destruct (js_new cls message) as [inst |] eqn:Hnew; [| left; reflexivity].
  right. exists r, cls. auto.
Qed.

Lemma create_typed_error_object F w c message :
  exists cls props, create_typed_error F w c message = JsObject cls props.
Proof.
  destruct (create_typed_error_cases F w c message) as [-> | (r & cls & _ & _ & _ & Hnew)].
  - rewrite fallback_error_object. eauto.
  - destruct (js_new_object _ _ _ Hnew) as [props ->]. eauto.
Qed.

Lemma to_int64_small x : 0 <= x < 2 ^ 63 -> to_int64 x = x.
Proof.
  intros Hx. unfold to_int64.
  rewrite Z.mod_small by lia.
  destruct (decide (x < 2 ^ 63)); [reflexivity | lia].
Qed.

End ObjectLemmas.

(** ** downloadRead *)

Section DownloadReadProperties.

Implicit Types (w : world) (F : napi_faults).

(** C9. [downloadRead] over a buffer of at most 2^63 - 1 bytes, with a
    native read that reports no more bytes than it was asked for: when the
    native read reports an error, end of stream included, the promise is
    rejected with the error object of [create_typed_error] (message "EOF"
    when the native error has none) on which [bytesRead] is set to the
    number of bytes the read reported; when it reports no error, the
    promise is resolved with an object whose only property [bytesRead] is
    that number. *)
Theorem download_read_settles_with_bytes_read
    (L : Download.uplink_download_lib) F data wd w (length buffer_length : Z) :
  (forall h len,
      0 <= len ->
      0 <= Download.UplinkReadResult.bytes_read (Download.uplink_download_read L h len) <= len) ->
  length < 2 ^ 63 ->
  Download.download_read_length length buffer_length
  = Some (Download.DownloadReadData.data_length wd) ->
  let result :=
    Download.uplink_download_read L (Download.DownloadReadData.download_handle wd)
      (Download.DownloadReadData.data_length wd) in
  let n := Download.UplinkReadResult.bytes_read result in
  let w' := run_async_work false (Download.download_read_execute L)
              (Download.download_read_complete F) data wd w in
  exists settled,
    List.filter is_settlement (w_trace w')
    = List.filter is_settlement (w_trace w) ++ [settled] /\
    match Download.UplinkReadResult.error result with
    | Some e =>
        exists err,
          settled = EvReject (Download.DownloadReadData.deferred wd) err /\
          err = napi_set_named_property
                  (create_typed_error F w (Uplink.code (Uplink.deref e))
                     (Some (default "EOF" (Uplink.message (Uplink.deref e)))))
                  "bytesRead" (JsNumber n) /\
          js_get err "bytesRead" = JsNumber n
    | None =>
        settled = EvResolve (Download.DownloadReadData.deferred wd)
                    (JsObject "Object" [("bytesRead", JsNumber n)])
    end.
Proof.
  intros Hnative Hlen Hcheck. cbv zeta.
  unfold Download.download_read_length in Hcheck.
  destruct (decide (length < 0 \/ length > buffer_length)) as [| Hrange]; [discriminate |].
  injection Hcheck as Hdl.
  assert (Hdl0 : 0 <= Download.DownloadReadData.data_length wd) by lia.
  pose proof (Hnative (Download.DownloadReadData.download_handle wd)
                (Download.DownloadReadData.data_length wd) Hdl0) as Hn.
  set (result := Download.uplink_download_read L _ _) in *.
  assert (Hcast : to_int64 (Download.UplinkReadResult.bytes_read result)
                  = Download.UplinkReadResult.bytes_read result).
  { apply to_int64_small. lia. }
  unfold run_async_work, Download.download_read_execute, Download.download_read_complete.
  settle_status. cbn. fold result. rewrite Hcast.
  destruct (Download.UplinkReadResult.error result) as [e |].
  - eexists. split.
    + rewrite ?w_trace_emit. cbn.
      destruct (Download.DownloadReadData.buffer_ref wd);
        cbn; rewrite ?List.filter_app; cbn; rewrite ?app_nil_r; reflexivity.
    + eexists. split; [reflexivity |]. split; [reflexivity |].
      destruct (create_typed_error_object F w (Uplink.code (Uplink.deref e))
                  (Some (default "EOF" (Uplink.message (Uplink.deref e)))))
        as (cls & props & ->).
      apply js_get_set_object.
  - eexists. split.
    + destruct (Download.DownloadReadData.buffer_ref wd);
        cbn; rewrite ?List.filter_app; cbn; rewrite ?app_nil_r; reflexivity.
    + reflexivity.
Qed.

Lemma download_read_settles_with_bytes_read_witness :
  exists err,
    List.filter is_settlement
      (w_trace (run_async_work false (Download.download_read_execute eof_lib)
                  (Download.download_read_complete no_faults) 30 download_read_payload
                  initial_world))
    = [EvReject 21 err] /\
    js_get err "bytesRead" = JsNumber 3 /\
    js_get err "message" = JsString "EOF".
Proof.
  destruct (download_read_settles_with_bytes_read eof_lib no_faults 30 download_read_payload
              initial_world 10 16)
    as (settled & Hfilter & Hsettled).
  - intros h len Hlen. cbn. lia.
  - lia.
  - reflexivity.
  - cbn in Hsettled. destruct Hsettled as (err & -> & -> & Hget).
    eexists. split; [exact Hfilter |]. split; [exact Hget | reflexivity].
Defined.

End DownloadReadProperties.

(** ** The error class registry *)

Section RegistryProperties.

Implicit Types (w : world) (F : napi_faults) (entries : list ErrorClassEntry).

Lemma find_error_constructor_ref_in_Some entries c r :
  find_error_constructor_ref_in entries c = Some r ->
  exists e, e ∈ entries /\ code e = c /\ constructor_ref e = Some r.
Proof.
  induction entries as [| e rest IH]; cbn; [discriminate |].
  destruct (decide (code e = c)) as [Hc | Hc].
  - destruct (constructor_ref e) as [r' |] eqn:Hr.
    + intros [= <-]. exists e. split; [left | auto].
    + intros H. destruct (IH H) as (e' & Hin & ?). exists e'. split; [by right | assumption].
  - intros H. destruct (IH H) as (e' & Hin & ?). exists e'. split; [by right | assumption].
Qed.

Lemma find_error_constructor_ref_in_clean entries c :
  Forall (fun e => constructor_ref e = None) entries ->
  find_error_constructor_ref_in entries c = None.
Proof.
  induction 1 as [| e rest He _ IH]; cbn; [reflexivity |].
  rewrite He. destruct (decide (code e = c)); exact IH.
Qed.

(** The classes object maps a name to the class of that name, and every
    name it maps is a class [js_new] can construct. *)
Lemma props_get_classes (n : string) (l : list (string * (string * Z))) v :
  props_get n (map (fun c => (c.1, JsFunction c.1)) l) = Some v ->
  v = JsFunction n /\ is_Some (list_find (fun c => c.1 = n) l).
Proof.
  induction l as [| [k x] rest IH]; cbn; [discriminate |].
  destruct (decide (k = n)) as [-> | Hne].
  - intros [= <-]. split; [reflexivity | eauto].
  - intros H. destruct (IH H) as [-> [y Hy]]. split; [reflexivity |].
    rewrite Hy. eauto.
Qed.

Lemma error_classes_object_function n :
  napi_typeof (js_get error_classes_object n) = napi_function ->
  js_get error_classes_object n = JsFunction n /\ forall arg, is_Some (js_new n arg).
Proof.
  unfold error_classes_object, js_get. cbn [props_get].
  destruct (decide ("StorjError" = n)) as [<- | Hne].
  - intros _. split; [reflexivity |]. intros arg. unfold js_new.
    destruct (decide ("StorjError" = "StorjError")); [eauto | contradiction].
  - destruct (props_get n _) as [v |] eqn:Hget; [| discriminate].
    destruct (props_get_classes _ _ _ Hget) as [-> [[i [cname [title c]]] Hfind]].
    intros _. split; [reflexivity |]. intros arg. unfold js_new.
    destruct (decide (n = "StorjError")) as [-> | _]; [contradiction |].
    rewrite Hfind. eauto.
Qed.

(** One step of the registration loop. *)
Lemma register_one_error_class_spec F obj entry w n entry' w' :
  register_one_error_class F obj entry w = (n, entry', w') ->
  code entry' = code entry /\ name entry' = name entry /\
  (w_fresh w <= w_fresh w')%positive /\
  (forall k, k < Z.pos (w_fresh w) -> w_refs w' !! k = w_refs w !! k) /\
  (constructor_ref entry' = constructor_ref entry \/
   constructor_ref entry' = Some (Z.pos (w_fresh w)) /\
   (w_fresh w < w_fresh w')%positive /\
   napi_typeof (js_get obj (name entry)) = napi_function /\
   w_refs w' !! Z.pos (w_fresh w) = Some (js_get obj (name entry))).
Proof.
  unfold register_one_error_class.
  destruct (get_named_property_fails F (name entry)).
  { intros [= <- <- <-]. repeat split; auto; lia. }
  destruct (decide (napi_typeof (js_get obj (name entry)) <> napi_function)) as [| Hfun].
  { intros [= <- <- <-]. repeat split; auto; lia. }
  destruct (create_reference_fails F (name entry)).
  { intros [= <- <- <-]. repeat split; auto; lia. }
  cbn. intros [= <- <- <-]. cbn.
  split; [reflexivity |]. split; [reflexivity |]. split; [lia |]. split.
  - intros k Hk. apply lookup_insert_ne. lia.
  - right. split; [reflexivity |]. split; [lia |]. split.
    + destruct (decide (napi_typeof (js_get obj (name entry)) = napi_function));
        [assumption | contradiction].
    + apply lookup_insert_eq.
Qed.

(** The registration loop over entries that hold no reference yet: every
    reference stored in an entry is live and refers to the constructor the
    classes object has under the entry's name. *)
Lemma register_all_spec F obj entries : forall w count entries' w',
  Forall (fun e => constructor_ref e = None) entries ->
  register_all F obj entries w = (count, entries', w') ->
  (w_fresh w <= w_fresh w')%positive /\
  (forall k, k < Z.pos (w_fresh w) -> w_refs w' !! k = w_refs w !! k) /\
  Forall (fun e => forall r, constructor_ref e = Some r ->
                   napi_typeof (js_get obj (name e)) = napi_function /\
                   w_refs w' !! r = Some (js_get obj (name e))) entries'.
Proof.
  induction entries as [| e rest IH]; intros w count entries' w' Hclean; cbn.
  - intros [= <- <- <-]. split; [lia |]. split; [auto | constructor].
  - destruct (register_one_error_class F obj e w) as [[n e1] w1] eqn:Hone.
    destruct (register_all F obj rest w1) as [[count' rest'] w2] eqn:Hrest.
    intros [= <- <- <-].
    apply Forall_cons in Hclean as [He Hclean].
    destruct (register_one_error_class_spec _ _ _ _ _ _ _ Hone)
      as (Hcode & Hname & Hle1 & Hkeep1 & Href).
    destruct (IH _ _ _ _ Hclean Hrest) as (Hle2 & Hkeep2 & Hall).
    split; [lia |]. split.
    + intros k Hk. rewrite Hkeep2 by lia. apply Hkeep1. exact Hk.
    + constructor; [| exact Hall].
      intros r Hr. destruct Href as [Hsame | (Hnew & Hlt & Hfun & Hlook)].
      * rewrite Hsame, He in Hr. discriminate.
      * rewrite Hnew in Hr. injection Hr as <-. rewrite Hname.
        split; [exact Hfun |]. rewrite Hkeep2 by lia. exact Hlook.
Qed.

(** [error_registry_cleanup] leaves no reference in any entry. *)
Lemma cleanup_entries_clean entries : forall w,
  Forall (fun e => constructor_ref e = None) (cleanup_entries entries w).1.
Proof.
  induction entries as [| e rest IH]; intros w; cbn; [constructor |].
  destruct (constructor_ref e) as [r |] eqn:Hr.
  - specialize (IH (emit (EvDeleteReference r) (set_refs (delete r (w_refs w)) w))).
    destruct (cleanup_entries rest _) as [rest' w2]. cbn in *.
    constructor; [reflexivity | exact IH].
  - specialize (IH w). destruct (cleanup_entries rest w) as [rest' w2]. cbn in *.
    constructor; [exact Hr | exact IH].
Qed.

Lemma error_registry_cleanup_spec w :
  g_registered (error_registry_cleanup w) = false /\
  Forall (fun e => constructor_ref e = None) (error_registry (error_registry_cleanup w)).
Proof.
  unfold error_registry_cleanup.
  pose proof (cleanup_entries_clean (error_registry w) w) as Hclean.
  destruct (cleanup_entries (error_registry w) w) as [entries w1]. cbn in *.
  split; [reflexivity | exact Hclean].
Qed.

Lemma registry_clean_initial : registry_clean initial_world.
Proof. intros _. vm_compute. repeat constructor. Qed.

Lemma registry_clean_cleanup w : registry_clean (error_registry_cleanup w).
Proof. intros _. apply error_registry_cleanup_spec. Qed.

(** A successful [napi_init_error_classes] on a clean registry. *)
Lemma napi_init_error_classes_spec F argv w obj w' :
  registry_clean w ->
  napi_init_error_classes F argv w = (Some obj, w') ->
  g_registered w' = true /\
  Forall (fun e => forall r, constructor_ref e = Some r ->
                   w_refs w' !! r = Some (JsFunction (name e)) /\
                   forall arg, is_Some (js_new (name e) arg)) (error_registry w').
Proof.
  intros Hclean. unfold napi_init_error_classes.
  set (w0 := if g_registered w then error_registry_cleanup w else w).
  assert (Hclean0 : Forall (fun e => constructor_ref e = None) (error_registry w0)).
  { subst w0. destruct (g_registered w) eqn:Hreg.
    - apply error_registry_cleanup_spec.
    - apply Hclean. exact Hreg. }
  destruct (get_error_base_constructor F argv) as [[] [error_ctor |]]; try discriminate.
  destruct (create_string_fails F); [discriminate |].
  destruct (run_script_fails F); [discriminate |].
  destruct (call_function_fails F); [discriminate |].
  destruct (register_all F error_classes_object (error_registry w0) w0)
    as [[count entries] w1] eqn:Hall.
  intros [= <- <-]. cbn. split; [reflexivity |].
  destruct (register_all_spec _ _ _ _ _ _ _ Hclean0 Hall) as (_ & _ & Hrefs).
  eapply Forall_impl; [exact Hrefs |].
  intros e He r Hr. destruct (He r Hr) as [Hfun Hlook].
  destruct (error_classes_object_function _ Hfun) as [Hget Hnew].
  rewrite Hget in Hlook. auto.
Qed.

Lemma registry_clean_napi_init_error_classes F argv w :
  registry_clean w -> registry_clean (napi_init_error_classes F argv w).2.
Proof.
  intros Hclean. unfold napi_init_error_classes.
  set (w0 := if g_registered w then error_registry_cleanup w else w).
  assert (Hclean0 : registry_clean w0).
  { subst w0. destruct (g_registered w); [apply registry_clean_cleanup | exact Hclean]. }
  destruct (get_error_base_constructor F argv) as [[] [error_ctor |]]; try exact Hclean0.
  destruct (create_string_fails F); [exact Hclean0 |].
  destruct (run_script_fails F); [exact Hclean0 |].
  destruct (call_function_fails F); [exact Hclean0 |].
  destruct (register_all F error_classes_object (error_registry w0) w0)
    as [[count entries] w1]. cbn. intros Hreg. cbn in Hreg. discriminate.
Qed.

End RegistryProperties.

(** ** The life cycle of the error taxonomy *)

Section TaxonomyProperties.

Implicit Types (w : world) (F : napi_faults).



(** Scenario B of the specification: the typed instance for 0x13. *)
Example bucket_not_found_instance :
  create_typed_error no_faults registered_world 0x13 (Some "bucket missing")
  = JsObject "BucketNotFoundError"
      [ ("message", JsString "Bucket not found: bucket missing");
        ("name", JsString "BucketNotFoundError");
        ("code", JsNumber 0x13);
        ("details", JsString "bucket missing") ].
Proof. vm_compute. reflexivity. Qed.

(** C8, as stated, fails.  With the registry initialised,
    [create_typed_error(env, 0, "boom")] finds the entry of the base class,
    whose code is 0, and instantiates [StorjError]; the constructor, called
    with one argument, takes it for the message and leaves [code]
    undefined. *)
Lemma base_instantiated_counterexample :
  find_error_constructor_ref registered_world 0 = Some 1 /\
  create_typed_error no_faults registered_world 0 (Some "boom")
  = JsObject "StorjError"
      [ ("message", JsString "boom");
        ("name", JsString "StorjError");
        ("code", JsUndefined);
        ("details", JsUndefined) ] /\
  ~ base_never_instantiated no_faults registered_world.
Proof.
  split; [vm_compute; reflexivity |].
  assert (Hzero : create_typed_error no_faults registered_world 0 (Some "boom")
                  = JsObject "StorjError"
                      [ ("message", JsString "boom");
                        ("name", JsString "StorjError");
                        ("code", JsUndefined);
                        ("details", JsUndefined) ]).
  { vm_compute. reflexivity. }
  split; [exact Hzero |].
  intros Hnever. apply (Hnever 0 (Some "boom")). rewrite Hzero. reflexivity.
Qed.

(** The registry invariant holds as the process starts and is kept by
    initialisation, whatever its outcome, and by cleanup. *)
Lemma register_all_shape F obj entries : forall w,
  map (fun e => (code e, name e)) (register_all F obj entries w).1.2
  = map (fun e => (code e, name e)) entries.
Proof.
  induction entries as [| e rest IH]; intros w; cbn; [reflexivity |].
  destruct (register_one_error_class F obj e w) as [[n e1] w1] eqn:Hone.
  specialize (IH w1).
  destruct (register_all F obj rest w1) as [[count rest'] w2]. cbn in *.
  destruct (register_one_error_class_spec _ _ _ _ _ _ _ Hone) as (Hcode & Hname & _).
  rewrite Hcode, Hname, IH. reflexivity.
Qed.

Lemma cleanup_entries_shape entries : forall w,
  map (fun e => (code e, name e)) (cleanup_entries entries w).1
  = map (fun e => (code e, name e)) entries.
Proof.
  induction entries as [| e rest IH]; intros w; cbn; [reflexivity |].
  destruct (constructor_ref e) as [r |].
  - specialize (IH (emit (EvDeleteReference r) (set_refs (delete r (w_refs w)) w))).
    destruct (cleanup_entries rest _) as [rest' w2]. cbn in *. rewrite IH. reflexivity.
  - specialize (IH w). destruct (cleanup_entries rest w) as [rest' w2]. cbn in *.
    rewrite IH. reflexivity.
Qed.

Lemma registry_ok_initial : registry_ok initial_world.
Proof.
  split; [reflexivity |]. split; [exact registry_clean_initial |].
  unfold refs_named. vm_compute. repeat constructor; discriminate.
Qed.

Lemma registry_ok_cleanup w : registry_ok w -> registry_ok (error_registry_cleanup w).
Proof.
  intros (Hshape & _ & _).
  destruct (error_registry_cleanup_spec w) as [Hreg Hnone].
  split; [| split].
  - unfold registry_shape, error_registry_cleanup in *.
    pose proof (cleanup_entries_shape (error_registry w) w) as Hs.
    destruct (cleanup_entries (error_registry w) w) as [entries w1]. cbn in *.
    rewrite Hs. exact Hshape.
  - intros _. exact Hnone.
  - unfold refs_named. eapply Forall_impl; [exact Hnone |].
    intros e He r Hr. cbn in He. rewrite He in Hr. discriminate.
Qed.

Lemma registry_ok_napi_init_error_classes F argv w :
  registry_ok w -> registry_ok (napi_init_error_classes F argv w).2.
Proof.
  intros Hok.
  destruct (napi_init_error_classes F argv w) as [[obj |] w'] eqn:Hinit.
  - destruct Hok as (Hshape & Hclean & Hnamed).
    destruct (napi_init_error_classes_spec _ _ _ _ _ Hclean Hinit) as [Hreg Hrefs].
    split; [| split].
    + revert Hinit. unfold napi_init_error_classes.
      set (w0 := if g_registered w then error_registry_cleanup w else w).
      assert (Hshape0 : registry_shape w0).
      { subst w0. destruct (g_registered w); [| exact Hshape].
        apply registry_ok_cleanup. repeat split; assumption. }
      destruct (get_error_base_constructor F argv) as [[] [error_ctor |]]; try discriminate.
      destruct (create_string_fails F); [discriminate |].
      destruct (run_script_fails F); [discriminate |].
      destruct (call_function_fails F); [discriminate |].
      pose proof (register_all_shape F error_classes_object (error_registry w0) w0) as Hs.
      destruct (register_all F error_classes_object (error_registry w0) w0)
        as [[count entries] w1].
      intros [= _ <-]. unfold registry_shape. cbn in *. rewrite Hs. exact Hshape0.
    + intros Hfalse. cbn in Hfalse. rewrite Hreg in Hfalse. discriminate.
    + unfold refs_named. cbn. eapply Forall_impl; [exact Hrefs |].
      intros e He r Hr. cbn in He. apply (He r Hr).
  - revert Hinit. unfold napi_init_error_classes.
    set (w0 := if g_registered w then error_registry_cleanup w else w).
    assert (Hok0 : registry_ok w0).
    { subst w0. destruct (g_registered w); [apply registry_ok_cleanup |]; exact Hok. }
    destruct (get_error_base_constructor F argv) as [[] [error_ctor |]];
      try (intros [= <-]; exact Hok0).
    destruct (create_string_fails F); [intros [= <-]; exact Hok0 |].
    destruct (run_script_fails F); [intros [= <-]; exact Hok0 |].
    destruct (call_function_fails F); [intros [= <-]; exact Hok0 |].
    destruct (register_all F error_classes_object (error_registry w0) w0)
      as [[count entries] w1].
    discriminate.
Qed.

(** In the static table only the entry with code 0 names the base class. *)
Lemma base_entry_has_code_zero (c : Z) (n : string) :
  (c, n) ∈ map (fun e => (code e, name e)) error_registry_init ->
  n = "StorjError" -> c = 0.
Proof.
  intros Hin Hn. subst n. cbn in Hin.
  repeat (apply elem_of_cons in Hin as [Hin | Hin]; [congruence |]).
  apply elem_of_nil in Hin. contradiction.
Qed.

(** C8, amended.  In every state of the registry that initialisation and
    cleanup lead to, [create_typed_error] called with a code other than 0
    never returns an instance of the base class [StorjError], the class of
    the registry entry with code 0. *)
Theorem base_not_instantiated_for_nonzero_code F w c message :
  registry_ok w ->
  c <> 0 ->
  js_class_of (create_typed_error F w c message) <> Some "StorjError".
Proof.
  intros (Hshape & _ & Hnamed) Hc.
  destruct (create_typed_error_cases F w c message)
    as [-> | (r & cls & _ & Hfind & Hlook & Hnew)].
  - rewrite fallback_error_object. discriminate.
  - destruct (find_error_constructor_ref_in_Some _ _ _ Hfind) as (e & Hin & Hcode & Href).
    unfold refs_named in Hnamed. rewrite Forall_forall in Hnamed.
    pose proof (Hnamed e Hin r Href) as Hlook'.
    rewrite Hlook in Hlook'. injection Hlook' as ->.
    destruct (js_new_object _ _ _ Hnew) as [props ->]. cbn.
    intros [= Hbase]. apply Hc. rewrite <- Hcode.
    apply (base_entry_has_code_zero (code e) (name e)); [| exact Hbase].
    rewrite <- Hshape. apply (list_elem_of_fmap_2 (fun e => (code e, name e))). exact Hin.
Qed.

Lemma base_not_instantiated_for_nonzero_code_witness :
  js_class_of (create_typed_error no_faults registered_world 0x13 (Some "bucket missing"))
  <> Some "StorjError".
Proof.
  apply (base_not_instantiated_for_nonzero_code no_faults registered_world 0x13
           (Some "bucket missing")).
  - exact (registry_ok_napi_init_error_classes no_faults [] initial_world registry_ok_initial).
  - lia.
Defined.

End TaxonomyProperties.

(** ** Names of handle kinds and of error codes *)

Section NameProperties.

Implicit Types (w : world) (F : napi_faults).

(** X1. [get_handle_type_name] gives every handle kind a name of its own,
    none of which is "Unknown", and answers "Unknown" for every integer
    that is not the value of a handle kind. *)
Theorem get_handle_type_name_distinct :
  (forall ty, get_handle_type_name (HandleType_value ty) <> "Unknown") /\
  (forall ty1 ty2,
      get_handle_type_name (HandleType_value ty1)
      = get_handle_type_name (HandleType_value ty2) -> ty1 = ty2) /\
  (forall t, (forall ty, HandleType_value ty <> t) -> get_handle_type_name t = "Unknown").
Proof.
  split; [intros []; vm_compute; discriminate |].
  split; [intros [] []; vm_compute; congruence |].
  intros t Hnot. unfold get_handle_type_name.
  destruct (decide (t >= 0 /\ t < Z.of_nat (length handle_type_names))) as [[Hlo Hhi] |];
    [| reflexivity].
  exfalso. cbn in Hhi.
  assert (Hcases : t = 0 \/ t = 1 \/ t = 2 \/ t = 3 \/ t = 4 \/ t = 5 \/ t = 6 \/ t = 7
                   \/ t = 8 \/ t = 9) by lia.
  destruct Hcases as [-> | [-> | [-> | [-> | [-> | [-> | [-> | [-> | [-> | ->]]]]]]]]].
  - exact (Hnot HANDLE_TYPE_ACCESS eq_refl).
  - exact (Hnot HANDLE_TYPE_PROJECT eq_refl).
  - exact (Hnot HANDLE_TYPE_DOWNLOAD eq_refl).
  - exact (Hnot HANDLE_TYPE_UPLOAD eq_refl).
  - exact (Hnot HANDLE_TYPE_ENCRYPTION_KEY eq_refl).
  - exact (Hnot HANDLE_TYPE_PART_UPLOAD eq_refl).
  - exact (Hnot HANDLE_TYPE_OBJECT_ITERATOR eq_refl).
  - exact (Hnot HANDLE_TYPE_BUCKET_ITERATOR eq_refl).
  - exact (Hnot HANDLE_TYPE_UPLOAD_ITERATOR eq_refl).
  - exact (Hnot HANDLE_TYPE_PART_ITERATOR eq_refl).
Qed.

(** X2. The name that the plain fallback error gets from [get_error_name]
    is the name of the error class registered for the same code for every
    entry of the registry except six: the base entry (code 0), the three
    limit errors 0x06, 0x07 and 0x08, which [ERROR_NAMES] spells without
    "Exceeded", and the two edge errors 0x30 and 0x31, which [ERROR_NAMES]
    does not list. *)
Theorem fallback_name_agrees_with_class_name e :
  e ∈ error_registry_init ->
  (get_error_name (code e) = name e <-> code e ∉ [0; 0x06; 0x07; 0x08; 0x30; 0x31]).
Proof.
  intros Hin.
  assert (Hall : Forall (fun e =>
                   bool_decide (get_error_name (code e) = name e)
                   = bool_decide (code e ∉ [0; 0x06; 0x07; 0x08; 0x30; 0x31]))
                   error_registry_init)
    by (vm_compute; repeat constructor).
  rewrite Forall_forall in Hall. specialize (Hall e Hin).
  split; intros H.
  - apply (bool_decide_eq_true_2 _) in H. rewrite Hall in H.
    exact (bool_decide_eq_true_1 _ H).
  - apply (bool_decide_eq_true_2 _) in H. rewrite <- Hall in H.
    exact (bool_decide_eq_true_1 _ H).
Qed.

Lemma fallback_name_agrees_with_class_name_witness :
  get_error_name 0x13 = "BucketNotFoundError" /\
  get_error_name 0x06 <> "BandwidthLimitExceededError".
Proof.
  split.
  - apply (fallback_name_agrees_with_class_name
             {| code := 0x13; name := "BucketNotFoundError"; constructor_ref := None |}).
    + vm_compute. do 12 right. left.
    + vm_compute. intros H. repeat (apply elem_of_cons in H as [H | H]; [discriminate |]).
      by apply elem_of_nil in H.
  - intros H.
    apply (fallback_name_agrees_with_class_name
             {| code := 0x06; name := "BandwidthLimitExceededError";
                constructor_ref := None |}) in H.
    + apply H. right. left.
    + vm_compute. do 5 right. left.
Defined.

End NameProperties.

(** ** What a typed error carries *)

Section TypedErrorProperties.

Implicit Types (w : world) (F : napi_faults) (entries : list ErrorClassEntry).

Lemma find_error_constructor_ref_in_unlisted entries c :
  c ∉ map code entries -> find_error_constructor_ref_in entries c = None.
Proof.
  induction entries as [| e rest IH]; cbn; [reflexivity |].
  intros Hnot. apply not_elem_of_cons in Hnot as [Hne Hrest].
  destruct (decide (code e = c)); [congruence | exact (IH Hrest)].
Qed.

Lemma registry_shape_codes w :
  registry_shape w -> map code (error_registry w) = map code error_registry_init.
Proof.
  intros Hshape. unfold registry_shape in Hshape.
  apply (f_equal (map fst)) in Hshape.
  rewrite !map_map in Hshape. exact Hshape.
Qed.

(** X3. For a code that the registry does not list, such as -1 for the end
    of a stream, [create_typed_error] returns the plain fallback Error,
    whether the classes are registered or not; its name is "UplinkError"
    and it carries the code and the message. *)
Theorem unlisted_code_falls_back F w c message :
  registry_shape w ->
  c ∉ map code error_registry_init ->
  create_typed_error F w c message
  = JsObject "Error"
      [ ("message", JsString (default "Unknown error" message));
        ("code", JsNumber c);
        ("name", JsString "UplinkError") ].
Proof.
  intros Hshape Hnot.
  assert (Hname : get_error_name c = "UplinkError").
  { unfold get_error_name, ERROR_NAMES. cbn.
    repeat (match goal with
            | |- context [decide (?k = c)] =>
                destruct (decide (k = c)) as [<- | ?];
                [exfalso; apply Hnot; vm_compute;
                 repeat (first [by left | right]) |]
            end).
    reflexivity. }
  assert (Hfb : create_typed_error F w c message = fallback_error c message).
  { unfold create_typed_error, find_error_constructor_ref.
    rewrite find_error_constructor_ref_in_unlisted
      by (rewrite (registry_shape_codes w Hshape); exact Hnot).
    destruct (g_registered w); reflexivity. }
  rewrite Hfb, fallback_error_object, Hname. reflexivity.
Qed.

Lemma unlisted_code_falls_back_witness :
  create_typed_error no_faults registered_world (-1) (Some "EOF")
  = JsObject "Error"
      [ ("message", JsString "EOF"); ("code", JsNumber (-1));
        ("name", JsString "UplinkError") ].
Proof.
  apply (unlisted_code_falls_back no_faults registered_world (-1) (Some "EOF")).
  - exact (proj1 (registry_ok_napi_init_error_classes no_faults [] initial_world
                    registry_ok_initial)).
  - vm_compute. intros H.
    repeat (apply elem_of_cons in H as [H | H]; [discriminate |]).
    by apply elem_of_nil in H.
Defined.

(** The class that [ERROR_CLASSES_JS] declares under the name of a registry
    entry with a code other than 0 passes that same code to the base
    constructor. *)
Lemma registry_entry_class (c : Z) (n : string) :
  (c, n) ∈ map (fun e => (code e, name e)) error_registry_init ->
  c <> 0 ->
  exists title,
    forall details,
      js_new n details
      = Some (StorjError_constructor n (Some title) (JsNumber c) details).
Proof.
  intros Hin Hc. cbn in Hin.
  repeat (apply elem_of_cons in Hin as [Hin | Hin];
          [injection Hin as -> ->;
           first [contradiction
                 | eexists; intros details; unfold js_new; cbn; reflexivity] |]).
  by apply elem_of_nil in Hin.
Qed.

(** X4. When [create_typed_error], called with a code other than 0, does
    not fall back, the instance it returns is of the class the registry
    names for that code, and it carries that code, the class name as its
    name, the given message as its details, and as its message the title of
    the class followed, when the details are a non-empty string, by ": "
    and the details. *)
Theorem typed_error_fields F w c message :
  registry_ok w ->
  c <> 0 ->
  create_typed_error F w c message = fallback_error c message \/
  exists n title,
    (c, n) ∈ map (fun e => (code e, name e)) error_registry_init /\
    create_typed_error F w c message
    = JsObject n
        [ ("message",
           JsString match message with
                    | Some d => if decide (d = "") then title else title +:+ ": " +:+ d
                    | None => title
                    end);
          ("name", JsString n);
          ("code", JsNumber c);
          ("details", js_of_opt message) ].
Proof.
  intros (Hshape & _ & Hnamed) Hc.
  destruct (create_typed_error_cases F w c message)
    as [Hfb | (r & cls & _ & Hfind & Hlook & Hnew)]; [left; exact Hfb | right].
  destruct (find_error_constructor_ref_in_Some _ _ _ Hfind) as (e & Hin & Hcode & Href).
  unfold refs_named in Hnamed. rewrite Forall_forall in Hnamed.
  pose proof (Hnamed e Hin r Href) as Hlook'.
  rewrite Hlook in Hlook'. injection Hlook' as ->.
  assert (Hentry : (c, name e) ∈ map (fun e => (code e, name e)) error_registry_init).
  { rewrite <- Hshape, <- Hcode.
    apply (list_elem_of_fmap_2 (fun e => (code e, name e))). exact Hin. }
  destruct (registry_entry_class c (name e) Hentry Hc) as [title Htitle].
  exists (name e), title. split; [exact Hentry |].
  rewrite (Htitle message) in Hnew. injection Hnew as <-.
  unfold StorjError_constructor.
  destruct message as [d |]; [| reflexivity].
  destruct (decide (d = "")); reflexivity.
Qed.

Lemma typed_error_fields_witness :
  js_get (create_typed_error no_faults registered_world 0x21 (Some "k")) "code"
  = JsNumber 0x21.
Proof.
  destruct (typed_error_fields no_faults registered_world 0x21 (Some "k"))
    as [Hfb | (n & title & _ & Htyped)].
  - exact (registry_ok_napi_init_error_classes no_faults [] initial_world
             registry_ok_initial).
  - lia.
  - rewrite Hfb. reflexivity.
  - rewrite Htyped. reflexivity.
Defined.

End TypedErrorProperties.

(** ** Teardown and re-initialisation of the registry *)

Section TeardownProperties.

Implicit Types (w : world) (F : napi_faults) (entries : list ErrorClassEntry).

(** The loop of [error_registry_cleanup]: one [napi_delete_reference] per
    entry that holds a reference, in table order; the deleted references
    are dead afterwards and no other reference is touched. *)
Lemma cleanup_entries_effect entries : forall w,
  w_trace (cleanup_entries entries w).2
  = w_trace w ++ map EvDeleteReference (omap constructor_ref entries) /\
  (forall k, w_refs (cleanup_entries entries w).2 !! k
             = if decide (k ∈ omap constructor_ref entries) then None else w_refs w !! k) /\
  w_fresh (cleanup_entries entries w).2 = w_fresh w /\
  w_heap (cleanup_entries entries w).2 = w_heap w.
Proof.
  induction entries as [| e rest IH]; intros w; cbn.
  - split; [by rewrite app_nil_r |]. split; [| split; reflexivity].
    intros k. destruct (decide (k ∈ [])) as [Hin | _]; [| reflexivity].
    by apply elem_of_nil in Hin.
  - destruct (constructor_ref e) as [r |]; cbn.
    + specialize (IH (emit (EvDeleteReference r) (set_refs (delete r (w_refs w)) w))).
      destruct (cleanup_entries rest _) as [rest' w2]. cbn in *.
      destruct IH as (Htr & Hrefs & Hfresh & Hheap).
      split; [rewrite Htr, <- app_assoc; reflexivity |].
      split; [| split; assumption].
      intros k. rewrite Hrefs.
      destruct (decide (k ∈ omap constructor_ref rest)) as [Hin | Hnin].
      * destruct (decide (k ∈ r :: omap constructor_ref rest)) as [_ | Hn];
          [reflexivity | exfalso; apply Hn; by right].
      * destruct (decide (k = r)) as [-> | Hne].
        -- rewrite lookup_delete_eq.
           destruct (decide (r ∈ r :: omap constructor_ref rest)) as [_ | Hn];
             [reflexivity | exfalso; apply Hn; by left].
        -- rewrite lookup_delete_ne by congruence.
           destruct (decide (k ∈ r :: omap constructor_ref rest)) as [Hin | _];
             [| reflexivity].
           apply elem_of_cons in Hin as [? | ?]; contradiction.
    + specialize (IH w). destruct (cleanup_entries rest w) as [rest' w2]. cbn in *.
      exact IH.
Qed.

Lemma cleanup_entries_clean_id entries w :
  Forall (fun e => constructor_ref e = None) entries ->
  cleanup_entries entries w = (entries, w).
Proof.
  induction 1 as [| e rest He _ IH]; cbn; [reflexivity |].
  rewrite He, IH. reflexivity.
Qed.

Lemma error_registry_cleanup_effect w :
  w_trace (error_registry_cleanup w)
  = w_trace w ++ map EvDeleteReference (omap constructor_ref (error_registry w)) /\
  (forall k, w_refs (error_registry_cleanup w) !! k
             = if decide (k ∈ omap constructor_ref (error_registry w))
               then None else w_refs w !! k) /\
  w_fresh (error_registry_cleanup w) = w_fresh w.
Proof.
  unfold error_registry_cleanup.
  destruct (cleanup_entries_effect (error_registry w) w) as (Htr & Hrefs & Hfresh & _).
  destruct (cleanup_entries (error_registry w) w) as [entries w1]. cbn in *.
  auto.
Qed.

(** X5. [error_registry_cleanup] deletes the constructor reference of every
    entry that holds one, once and in table order, and does nothing else
    that is visible; the deleted references are dead afterwards and every
    other reference is as before.  Cleaning up a second time changes
    nothing. *)
Theorem error_registry_cleanup_releases_all w :
  w_trace (error_registry_cleanup w)
  = w_trace w ++ map EvDeleteReference (omap constructor_ref (error_registry w)) /\
  (forall r, r ∈ omap constructor_ref (error_registry w) ->
             w_refs (error_registry_cleanup w) !! r = None) /\
  (forall k, k ∉ omap constructor_ref (error_registry w) ->
             w_refs (error_registry_cleanup w) !! k = w_refs w !! k) /\
  error_registry_cleanup (error_registry_cleanup w) = error_registry_cleanup w.
Proof.
  destruct (error_registry_cleanup_effect w) as (Htr & Hrefs & _).
  split; [exact Htr |].
  split.
  { intros r Hr. rewrite Hrefs.
    destruct (decide (r ∈ omap constructor_ref (error_registry w))); [reflexivity | contradiction]. }
  split.
  { intros k Hk. rewrite Hrefs.
    destruct (decide (k ∈ omap constructor_ref (error_registry w))); [contradiction | reflexivity]. }
  destruct (error_registry_cleanup_spec w) as [Hreg Hnone].
  generalize dependent (error_registry_cleanup w). intros w2 _ _ Hreg Hnone.
  unfold error_registry_cleanup.
  rewrite (cleanup_entries_clean_id _ w2 Hnone).
  destruct w2. cbn in *. subst. reflexivity.
Qed.

(** The registration loop leaves the trace alone and hands out only new
    references. *)
Lemma register_all_fresh F obj entries : forall w,
  Forall (fun e => constructor_ref e = None) entries ->
  w_trace (register_all F obj entries w).2 = w_trace w /\
  Forall (fun e => forall r, constructor_ref e = Some r -> Z.pos (w_fresh w) <= r)
    (register_all F obj entries w).1.2.
Proof.
  induction entries as [| e rest IH]; intros w Hclean; cbn.
  - split; [reflexivity | constructor].
  - apply Forall_cons in Hclean as [He Hclean].
    destruct (register_one_error_class F obj e w) as [[n e1] w1] eqn:Hone.
    specialize (IH w1 Hclean).
    destruct (register_all F obj rest w1) as [[count rest'] w2]. cbn in *.
    destruct IH as [Htr Hall].
    destruct (register_one_error_class_spec _ _ _ _ _ _ _ Hone)
      as (_ & _ & Hle & _ & Href).
    assert (Htr1 : w_trace w1 = w_trace w).
    { revert Hone. unfold register_one_error_class.
      destruct (get_named_property_fails F (name e)); [by intros [= _ _ <-] |].
      destruct (decide _); [by intros [= _ _ <-] |].
      destruct (create_reference_fails F (name e)); [by intros [= _ _ <-] |].
      cbn. by intros [= _ _ <-]. }
    split; [congruence |].
    constructor.
    + intros r Hr. destruct Href as [Hsame | (Hnew & _)].
      * rewrite Hsame, He in Hr. discriminate.
      * rewrite Hnew in Hr. injection Hr as <-. lia.
    + eapply Forall_impl; [exact Hall |]. intros e' He' r Hr. cbn in He'.
      specialize (He' r Hr). lia.
Qed.

(** X6. A successful [napi_init_error_classes] on a registry that is
    already registered first deletes every reference the registry holds,
    once each, and throws nothing; a reference it held before is dead
    afterwards, and every reference the registry holds afterwards is a new
    one.  Initialising twice does not leak the first set of references. *)
Theorem reinitialisation_releases_old_references F argv w obj w' :
  g_registered w = true ->
  napi_init_error_classes F argv w = (Some obj, w') ->
  w_trace w'
  = w_trace w ++ map EvDeleteReference (omap constructor_ref (error_registry w)) /\
  (forall r, r ∈ omap constructor_ref (error_registry w) ->
             r < Z.pos (w_fresh w) -> w_refs w' !! r = None) /\
  Forall (fun e => forall r, constructor_ref e = Some r -> Z.pos (w_fresh w) <= r)
    (error_registry w').
Proof.
  intros Hreg. unfold napi_init_error_classes. rewrite Hreg.
  destruct (error_registry_cleanup_effect w) as (Htr & Hrefs & Hfresh).
  destruct (error_registry_cleanup_spec w) as [_ Hnone].
  set (w0 := error_registry_cleanup w) in *.
  destruct (get_error_base_constructor F argv) as [[] [error_ctor |]]; try discriminate.
  destruct (create_string_fails F); [discriminate |].
  destruct (run_script_fails F); [discriminate |].
  destruct (call_function_fails F); [discriminate |].
  destruct (register_all_fresh F error_classes_object (error_registry w0) w0 Hnone)
    as [Htr1 Hnew].
  destruct (register_all F error_classes_object (error_registry w0) w0)
    as [[count entries] w1] eqn:Hall.
  destruct (register_all_spec _ _ _ _ _ _ _ Hnone Hall) as (_ & Hkeep & _).
  intros [= _ <-]. cbn in *.
  split; [rewrite Htr1; exact Htr |].
  split.
  - intros r Hr Hlt. rewrite Hkeep by lia. rewrite Hrefs.
    destruct (decide (r ∈ omap constructor_ref (error_registry w)));
      [reflexivity | contradiction].
  - rewrite <- Hfresh. exact Hnew.
Qed.

Lemma reinitialisation_releases_old_references_witness :
  let w' := (napi_init_error_classes no_faults [] registered_world).2 in
  w_trace w' = map EvDeleteReference (Z.of_nat <$> seq 1 18) /\
  w_refs w' !! 1 = None /\
  find_error_constructor_ref w' 0 = Some 19.
Proof.
  cbv zeta.
  assert (Hinit : napi_init_error_classes no_faults [] registered_world
                  = (Some error_classes_object,
                     (napi_init_error_classes no_faults [] registered_world).2))
    by (vm_compute; reflexivity).
  destruct (reinitialisation_releases_old_references no_faults [] registered_world _ _
              eq_refl Hinit) as (Htr & Hdead & _).
  split; [rewrite Htr; vm_compute; reflexivity |].
  split; [| vm_compute; reflexivity].
  apply Hdead; [vm_compute; left | vm_compute; reflexivity].
Defined.

(** X7. When [napi_init_error_classes] fails it throws one error and
    returns NULL, and the classes are not registered afterwards, also when
    they were registered before the call: the references held before are
    deleted before the first step that can fail, so that
    [create_typed_error] falls back for every code. *)
Theorem failed_initialisation_unregisters F argv w w' :
  napi_init_error_classes F argv w = (None, w') ->
  g_registered w' = false /\
  (exists msg,
      w_trace w'
      = w_trace w ++
          (if g_registered w
           then map EvDeleteReference (omap constructor_ref (error_registry w))
           else []) ++
          [EvThrowError msg]) /\
  forall F' c message, create_typed_error F' w' c message = fallback_error c message.
Proof.
  intros Hinit.
  assert (Hcore : g_registered w' = false /\
                  exists msg,
                    w_trace w'
                    = w_trace w ++
                        (if g_registered w
                         then map EvDeleteReference (omap constructor_ref (error_registry w))
                         else []) ++
                        [EvThrowError msg]).
  { revert Hinit. unfold napi_init_error_classes.
    set (w0 := if g_registered w then error_registry_cleanup w else w).
    assert (Hw0 : g_registered w0 = false /\
                  w_trace w0
                  = w_trace w ++
                      (if g_registered w
                       then map EvDeleteReference (omap constructor_ref (error_registry w))
                       else [])).
    { subst w0. destruct (g_registered w) eqn:Hreg.
      - split; [apply error_registry_cleanup_spec | apply error_registry_cleanup_effect].
      - split; [exact Hreg | by rewrite app_nil_r]. }
    destruct Hw0 as [Hreg0 Htr0].
    assert (Hthrow : forall msg,
               g_registered (emit (EvThrowError msg) w0) = false /\
               exists msg',
                 w_trace (emit (EvThrowError msg) w0)
                 = w_trace w ++
                     (if g_registered w
                      then map EvDeleteReference (omap constructor_ref (error_registry w))
                      else []) ++
                     [EvThrowError msg']).
    { intros msg. split; [exact Hreg0 |]. exists msg. cbn.
      rewrite Htr0, <- app_assoc. reflexivity. }
    destruct (get_error_base_constructor F argv) as [[] [error_ctor |]];
      try (intros [= <-]; apply Hthrow).
    destruct (create_string_fails F); [intros [= <-]; apply Hthrow |].
    destruct (run_script_fails F); [intros [= <-]; apply Hthrow |].
    destruct (call_function_fails F); [intros [= <-]; apply Hthrow |].
    destruct (register_all F error_classes_object (error_registry w0) w0)
      as [[count entries] w1].
    discriminate. }
  destruct Hcore as [Hreg Htrace].
  split; [exact Hreg |]. split; [exact Htrace |].
  intros F' c message. unfold create_typed_error. rewrite Hreg. reflexivity.
Qed.

Lemma failed_initialisation_unregisters_witness :
  let w' := (napi_init_error_classes script_fault [] registered_world).2 in
  g_registered w' = false /\
  create_typed_error no_faults w' 19 (Some "gone") = fallback_error 19 (Some "gone").
Proof.
  assert (Heq : napi_init_error_classes script_fault [] registered_world
                = (None, (napi_init_error_classes script_fault [] registered_world).2))
    by (vm_compute; reflexivity).
  destruct (failed_initialisation_unregisters script_fault [] registered_world _ Heq)
    as (Hreg & _ & Hfall).
  split; [exact Hreg | apply Hfall].
Defined.

End TeardownProperties.

(** ** Strings *)

Section StringProperties.

Implicit Types (w : world) (oom : alloc_oracle) (chars : list Ascii.ascii).

Lemma only_lowercase_digits_hyphens_Forall chars :
  only_lowercase_digits_hyphens chars = true <->
  Forall (fun c => islower c || isdigit c || bool_decide (c = hyphen) = true) chars.
Proof.
  induction chars as [| c rest IH]; cbn.
  - split; [constructor | reflexivity].
  - rewrite Forall_cons.
    destruct (islower c), (isdigit c), (bool_decide (c = hyphen)); cbn;
      first [ split; [intros H; split; [reflexivity | apply IH, H]
                     | intros [_ H]; apply IH, H]
            | split; [discriminate | intros [H _]; discriminate H] ].
Qed.

Lemma isalnum_of_allowed c :
  islower c || isdigit c || bool_decide (c = hyphen) = true ->
  c <> hyphen -> isalnum c = true.
Proof.
  unfold isalnum. intros H Hne.
  rewrite (bool_decide_eq_false_2 _ Hne), orb_false_r in H.
  destruct (islower c), (isdigit c); cbn in *; congruence.
Qed.

(** X8. [validate_bucket_name] accepts exactly the names of 3 to 63
    characters that consist of lowercase letters, digits and hyphens and
    neither start nor end with a hyphen; an uppercase letter is refused
    also as first or last character, where the check with [isalnum] alone
    would let it pass.  NULL is refused. *)
Theorem validate_bucket_name_accepts chars :
  validate_bucket_name None = 0 /\
  (validate_bucket_name (Some chars) = 1 <->
   (3 <= length chars <= 63)%nat /\
   Forall (fun c => islower c || isdigit c || bool_decide (c = hyphen) = true) chars /\
   head chars <> Some hyphen /\
   last chars <> Some hyphen).
Proof.
  split; [reflexivity |].
  unfold validate_bucket_name.
  rewrite last_lookup, head_lookup.
  replace (pred (length chars)) with (length chars - 1)%nat by lia.
  destruct (decide (length chars < 3 \/ 63 < length chars)%nat) as [Hlen | Hlen].
  { split; [discriminate | lia]. }
  assert (Hlen' : (3 <= length chars <= 63)%nat) by lia.
  destruct (chars !! 0%nat) as [first |] eqn:Hfirst;
    [| apply lookup_ge_None in Hfirst; lia].
  destruct (chars !! (length chars - 1)%nat) as [lst |] eqn:Hlast;
    [| apply lookup_ge_None in Hlast; lia].
  destruct (isalnum first) eqn:Hfa; cbn.
  - destruct (isalnum lst) eqn:Hla; cbn.
    + destruct (only_lowercase_digits_hyphens chars) eqn:Hloop.
      * apply only_lowercase_digits_hyphens_Forall in Hloop.
        split; [intros _ | reflexivity].
        split; [exact Hlen' |]. split; [exact Hloop |].
        split; intros [= ->]; vm_compute in Hfa, Hla; discriminate.
      * split; [discriminate |]. intros (_ & Hall & _).
        apply only_lowercase_digits_hyphens_Forall in Hall. congruence.
    + split; [discriminate |]. intros (_ & Hall & _ & Hl).
      rewrite Forall_forall in Hall.
      assert (Hin : lst ∈ chars) by (eapply list_elem_of_lookup_2; exact Hlast).
      rewrite (isalnum_of_allowed lst (Hall lst Hin)) in Hla; [discriminate | congruence].
  - split; [discriminate |]. intros (_ & Hall & Hf & _).
    rewrite Forall_forall in Hall.
    assert (Hin : first ∈ chars) by (eapply list_elem_of_lookup_2; exact Hfirst).
    rewrite (isalnum_of_allowed first (Hall first Hin)) in Hfa; [discriminate | congruence].
Qed.

Lemma strlen_zero s : strlen s = 0 <-> c_str s = "".
Proof.
  unfold strlen. destruct (c_str s); cbn; split; intros H; try reflexivity; try lia.
  discriminate.
Qed.


End StringProperties.

(** ** createBucket from call to completion *)

Section CreateBucketProperties.

Implicit Types (w : world) (oom : alloc_oracle) (F : napi_faults).

Lemma free_count_app p tr1 tr2 :
  free_count p (tr1 ++ tr2) = (free_count p tr1 + free_count p tr2)%nat.
Proof. unfold free_count. rewrite List.filter_app, length_app. reflexivity. Qed.

(** A stretch of trace without cleanup events frees nothing. *)
Lemma free_count_no_cleanup p tr :
  List.filter is_cleanup_event tr = [] -> free_count p tr = 0%nat.
Proof.
  unfold free_count. induction tr as [| e rest IH]; cbn; [reflexivity |].
  destruct e; cbn; try exact IH; discriminate.
Qed.

(** What [extract_string_required] does with a string argument. *)
Lemma extract_string_required_string oom s param_name w :
  extract_string_required oom (JsString s) param_name w
  = if oom (w_fresh w) then (Status napi_generic_failure, None, w)
    else if decide (c_str s = "") then
      (Status napi_invalid_arg, None,
       emit (EvFree (Z.pos (w_fresh w)))
         (emit (EvThrowTypeError
                  (snprintf_256 ("Parameter '" +:+ param_name +:+ "' cannot be empty")))
            (set_fresh (Pos.succ (w_fresh w)) w)))
    else (Status napi_ok, Some (Uplink.Ptr (Z.pos (w_fresh w)) s),
          set_fresh (Pos.succ (w_fresh w)) w).
Proof.
  unfold extract_string_required, extract_string, alloc. cbn.
  destruct (oom (w_fresh w)); cbn; [reflexivity |].
  destruct (decide (strlen s = 0)) as [Hz | Hnz], (decide (c_str s = "")) as [He | Hne];
    try reflexivity.
  - apply strlen_zero in Hz. contradiction.
  - apply strlen_zero in He. contradiction.
Qed.

(** X10. [create_bucket] queues work only for a first argument that is
    extracted as a project handle and a second argument that is a string
    with a first byte other than NUL; the payload then carries the
    extracted project id and the copy of the name, and nothing was thrown.
    In every other case it returns NULL having called nothing in uplink-c
    and settled nothing. *)
Theorem create_bucket_validates oom argv w :
  match create_bucket oom argv w with
  | Some (Promised data work_data w1) =>
      exists a0 s rest,
        argv = a0 :: JsString s :: rest /\
        extract_handle w a0 HANDLE_TYPE_PROJECT
        = Some (napi_ok, Some (Bucket.BucketOpData.project_handle work_data)) /\
        c_str s <> "" /\
        Bucket.BucketOpData.bucket_name work_data = Z.pos (w_fresh w) /\
        Bucket.BucketOpData.result work_data
        = {| Bucket.bucket := None; Bucket.error := None |} /\
        w_trace w1 = w_trace w
  | Some (ReturnedNull w1) =>
      exists added,
        w_trace w1 = w_trace w ++ added /\
        List.filter is_native_call added = [] /\
        List.filter is_settlement added = []
  | None => True
  end.
Proof.
  unfold create_bucket.
  destruct argv as [| a0 [| a1 rest]].
  1, 2: eexists [_]; split; [reflexivity |]; split; reflexivity.
  destruct (extract_handle w a0 HANDLE_TYPE_PROJECT) as [[st out] |] eqn:Hext; [| exact I].
  destruct st; try (eexists [_]; split; [reflexivity |]; split; reflexivity).
  destruct out as [h |]; [| eexists [_]; split; [reflexivity |]; split; reflexivity].
  destruct a1 as [| | b | z | s | f | cls props | d];
    try (cbn; eexists [_]; split; [reflexivity |]; split; reflexivity).
  rewrite extract_string_required_string.
  destruct (oom (w_fresh w)); cbn.
  { exists []. split; [by rewrite app_nil_r |]. split; reflexivity. }
  destruct (decide (c_str s = "")) as [He | Hne]; cbn.
  { eexists [_; _]. split; [trace_eq |]. split; reflexivity. }
  unfold alloc. cbn. destruct (oom (Pos.succ (w_fresh w))); cbn.
  { eexists [_; _]. split; [trace_eq |]. split; reflexivity. }
  exists a0, s, rest. repeat split; assumption.
Qed.

(** X11. Over a whole [createBucket] call, the buffer that holds the copy
    of the bucket name is freed exactly once, whichever way the call ends:
    refused because the name is empty, out of memory for the payload,
    cancelled, failed or succeeded. *)
Theorem create_bucket_call_frees_name_once L oom F cancelled a0 s rest h w :
  extract_handle w a0 HANDLE_TYPE_PROJECT = Some (napi_ok, Some h) ->
  oom (w_fresh w) = false ->
  exists w' added,
    create_bucket_call L oom F cancelled (a0 :: JsString s :: rest) w = Some w' /\
    w_trace w' = w_trace w ++ added /\
    free_count (Z.pos (w_fresh w)) added = 1%nat.
Proof.
  intros Hext Hoom. unfold create_bucket_call, create_bucket.
  rewrite Hext, extract_string_required_string, Hoom.
  destruct (decide (c_str s = "")) as [He | Hne]; cbn.
  { eexists. eexists [_; _]. split; [reflexivity |].
    split; [trace_eq |].
    cbn. rewrite (bool_decide_eq_true_2 _ eq_refl). reflexivity. }
  unfold alloc. cbn. destruct (oom (Pos.succ (w_fresh w))); cbn.
  { eexists. eexists [_; _]. split; [reflexivity |].
    split; [trace_eq |].
    cbn. rewrite (bool_decide_eq_true_2 _ eq_refl). reflexivity. }
  destruct (decide (Status napi_ok <> Status napi_ok)) as [Hc | _]; [contradiction |].
  unfold run_async_work, Bucket.create_bucket_execute.
  destruct cancelled; cbv beta iota;
    match goal with
    | |- context [Bucket.create_bucket_complete ?F' ?st ?d ?wd ?w0] =>
        destruct (create_bucket_complete_cleanup F' st d wd w0) as (body & Htr & Hnc & _)
    end;
    (eexists; exists (body ++ [ EvFree (Z.pos (w_fresh w));
                                EvDeleteAsyncWork
                                  (Z.pos (Pos.succ (Pos.succ (Pos.succ (w_fresh w)))));
                                EvFree (Z.pos (Pos.succ (w_fresh w))) ]);
     split; [reflexivity |]; split; [exact Htr |];
     rewrite free_count_app, (free_count_no_cleanup _ _ Hnc); cbn;
     rewrite (bool_decide_eq_true_2 _ eq_refl);
     rewrite (bool_decide_eq_false_2 (Z.pos (Pos.succ (w_fresh w)) = Z.pos (w_fresh w)))
       by lia;
     reflexivity).
Qed.

Lemma create_bucket_call_frees_name_once_witness :
  exists w' added,
    create_bucket_call creating_lib never_oom no_faults false
      [JsExternal 1; JsString "photos"] project_wrapper_world = Some w' /\
    w_trace w' = w_trace project_wrapper_world ++ added /\
    free_count (Z.pos (w_fresh project_wrapper_world)) added = 1%nat.
Proof.
  apply (create_bucket_call_frees_name_once creating_lib never_oom no_faults false
           (JsExternal 1) "photos" [] 7 project_wrapper_world).
  - vm_compute; reflexivity.
  - reflexivity.
Defined.

End CreateBucketProperties.

(** ** Bucket iterators *)

Section BucketIteratorProperties.

Implicit Types (w : world) (F : napi_faults).

Lemma filter_settlement_app tr1 tr2 :
  List.filter is_settlement (tr1 ++ tr2)
  = List.filter is_settlement tr1 ++ List.filter is_settlement tr2.
Proof. apply List.filter_app. Qed.

Lemma w_heap_free_opt {T : Type} (p : option (Uplink.ptr T)) w :
  w_heap (free_opt p w) = w_heap w.
Proof. destruct p; reflexivity. Qed.


Lemma w_trace_free_wrapper data w : w_trace (free_wrapper data w) = w_trace w.
Proof. unfold free_wrapper. destruct (w_heap w !! data); reflexivity. Qed.

(** X12. When the worker of [listBucketsCreate] got an iterator and the
    wrapper can be made, the completion routine resolves the promise with a
    handle that is extracted, with kind BucketIterator, as the iterator
    pointer the worker got.  The handle owns no descriptor: collecting it
    calls no uplink-c routine, and the iterator is released by
    [freeBucketIterator], which calls [uplink_free_bucket_iterator] on that
    pointer.  When the worker got no iterator (NULL), the routine rejects
    with a plain Error, whatever the state of the error classes, and makes
    no handle. *)
Theorem list_buckets_handle_roundtrip F status data wd w :
  status <> napi_cancelled ->
  let w' := list_buckets_create_complete F status data wd w in
  let v := JsExternal (Z.pos (w_fresh w)) in
  let it := ListBucketsCreateData.iterator_handle wd in
  (it <> 0 -> malloc_fails F = false -> create_external_fails F = false ->
   List.filter is_settlement (w_trace w')
   = List.filter is_settlement (w_trace w)
       ++ [EvResolve (ListBucketsCreateData.deferred wd) v] /\
   extract_handle w' v HANDLE_TYPE_BUCKET_ITERATOR = Some (napi_ok, Some it) /\
   (exists w'', finalize_external v w' = Some w'' /\ w_trace w'' = w_trace w') /\
   (forall F', calloc_fails F' = false ->
      exists w'',
        Bucket.free_bucket_iterator_call F' false [v] w' = Some w'' /\
        iterator_free_count it (w_trace w'')
        = (iterator_free_count it (w_trace w') + 1)%nat)) /\
  (it = 0 ->
   List.filter is_settlement (w_trace w')
   = List.filter is_settlement (w_trace w)
       ++ [EvReject (ListBucketsCreateData.deferred wd)
             (JsObject "Error" [("message", JsString "Failed to create bucket iterator")])] /\
   w_heap w' = w_heap w).
Proof.
  intros Hst. cbv zeta. unfold list_buckets_create_complete. settle_status.
  split.
  - intros Hit Hmalloc Hext.
    destruct (decide (ListBucketsCreateData.iterator_handle wd = 0)); [contradiction |].
    unfold create_handle_external. rewrite Hmalloc. cbn. rewrite Hext. cbn.
    set (blk := {| block_contents :=
                     {| type := HANDLE_TYPE_BUCKET_ITERATOR;
                        handle := ListBucketsCreateData.iterator_handle wd;
                        native_ptr := 0 |};
                   block_live := true |}).
    match goal with
    | |- context [emit (EvFree data) ?w0] => set (w' := emit (EvFree data) w0)
    end.
    assert (Hheap : w_heap w' = <[Z.pos (w_fresh w) := blk]> (w_heap w)).
    { subst w'. cbn. rewrite w_heap_free_opt. reflexivity. }
    assert (Hblock : w_heap w' !! Z.pos (w_fresh w) = Some blk)
      by (rewrite Hheap; apply lookup_insert_eq).
    assert (Hnz : Z.pos (w_fresh w) <> 0) by lia.
    assert (Hextract : extract_handle w' (JsExternal (Z.pos (w_fresh w)))
                         HANDLE_TYPE_BUCKET_ITERATOR
                       = Some (napi_ok, Some (ListBucketsCreateData.iterator_handle wd))).
    { rewrite (extract_handle_block _ _ _ _ Hnz Hblock). subst blk. cbn.
      destruct (decide (HANDLE_TYPE_BUCKET_ITERATOR <> HANDLE_TYPE_BUCKET_ITERATOR));
        [contradiction |].
      destruct (decide (ListBucketsCreateData.iterator_handle wd = 0));
        [contradiction | reflexivity]. }
    split.
    { subst w'. destruct (ListBucketsCreateData.cursor wd);
        cbn; rewrite ?List.filter_app; cbn; rewrite ?app_nil_r; reflexivity. }
    split; [exact Hextract |].
    split.
    { unfold finalize_external, handle_destructor.
      destruct (decide (Z.pos (w_fresh w) = 0)); [contradiction |].
      rewrite Hblock. subst blk. cbn.
      eexists. split; [reflexivity |].
      apply w_trace_free_wrapper. }
    intros F' Hcalloc.
    destruct (free_bucket_iterator_call_ok F' false _ _ _ Hextract) as (w'' & Hcall & _ & Htr).
    exists w''. split; [exact Hcall |].
    rewrite (Htr Hcalloc eq_refl), iterator_free_count_app.
    unfold iterator_free_count at 2. cbn.
    rewrite (bool_decide_eq_true_2 _ eq_refl). reflexivity.
  - intros Hit.
    destruct (decide (ListBucketsCreateData.iterator_handle wd = 0)); [| contradiction].
    split.
    + destruct (ListBucketsCreateData.cursor wd);
        cbn; rewrite ?List.filter_app; cbn; rewrite ?app_nil_r; reflexivity.
    + cbn. rewrite w_heap_free_opt. reflexivity.
Qed.

Lemma list_buckets_handle_roundtrip_witness :
  extract_handle (list_buckets_create_complete no_faults napi_ok 30 list_payload initial_world)
    (JsExternal (Z.pos (w_fresh initial_world))) HANDLE_TYPE_BUCKET_ITERATOR
  = Some (napi_ok, Some 500).
Proof.
  destruct (list_buckets_handle_roundtrip no_faults napi_ok 30 list_payload initial_world
              napi_ok_not_cancelled) as [Hmade _].
  destruct Hmade as (_ & Hextract & _); [cbn; lia | reflexivity | reflexivity |].
  exact Hextract.
Defined.

(** X13. Each of the completion routines [delete_bucket_complete],
    [bucket_iterator_next_complete], [bucket_iterator_item_complete],
    [bucket_iterator_err_complete] and [free_bucket_iterator_complete]
    settles its promise exactly once, whatever the status and the payload,
    and then, as the last thing it does, deletes the work item and frees
    the payload (and the bucket name, where the payload owns one); nothing
    is freed or deleted before. *)
Theorem bucket_completions_settle_once :
  (forall F status data wd w,
      exists body,
        w_trace (delete_bucket_complete F status data wd w)
        = w_trace w ++ body ++
            [ EvFree (Bucket.BucketOpData.bucket_name wd);
              EvDeleteAsyncWork (Bucket.BucketOpData.work wd); EvFree data ] /\
        List.filter is_cleanup_event body = [] /\
        length (List.filter is_settlement body) = 1%nat) /\
  (forall status data wd w,
      exists body,
        w_trace (bucket_iterator_next_complete status data wd w)
        = w_trace w ++ body ++
            [ EvDeleteAsyncWork (BucketIteratorNextData.work wd); EvFree data ] /\
        List.filter is_cleanup_event body = [] /\
        length (List.filter is_settlement body) = 1%nat) /\
  (forall status data wd w,
      exists body,
        w_trace (bucket_iterator_item_complete status data wd w)
        = w_trace w ++ body ++
            [ EvDeleteAsyncWork (BucketIteratorItemData.work wd); EvFree data ] /\
        List.filter is_cleanup_event body = [] /\
        length (List.filter is_settlement body) = 1%nat) /\
  (forall F status data wd w,
      exists body,
        w_trace (Bucket.bucket_iterator_err_complete F status data wd w)
        = w_trace w ++ body ++
            [ EvDeleteAsyncWork (Bucket.BucketIteratorErrData.work wd); EvFree data ] /\
        List.filter is_cleanup_event body = [] /\
        length (List.filter is_settlement body) = 1%nat) /\
  (forall status data wd w,
      exists body,
        w_trace (Bucket.free_bucket_iterator_complete status data wd w)
        = w_trace w ++ body ++
            [ EvDeleteAsyncWork (Bucket.FreeBucketIteratorData.work wd); EvFree data ] /\
        List.filter is_cleanup_event body = [] /\
        length (List.filter is_settlement body) = 1%nat).
Proof.
  split; [| split; [| split; [| split]]].
  - intros F status data wd w. unfold delete_bucket_complete.
    destruct (decide (status = napi_cancelled)) as [-> | Hst]; settle_status.
    + eexists [EvReject _ _]. split; [flatten_trace; reflexivity |]. split; reflexivity.
    + destruct (Bucket.error (Bucket.BucketOpData.result wd)) as [e |].
      * eexists [EvReject _ _; EvNative _].
        split; [flatten_trace; reflexivity |]. split; reflexivity.
      * destruct (Bucket.bucket (Bucket.BucketOpData.result wd)) as [b |].
        -- eexists [EvNative _; EvResolve _ _].
           split; [flatten_trace; reflexivity |]. split; reflexivity.
        -- eexists [EvResolve _ _].
           split; [flatten_trace; reflexivity |]. split; reflexivity.
  - intros status data wd w. unfold bucket_iterator_next_complete.
    destruct (decide (status = napi_cancelled)) as [-> | Hst]; settle_status.
    + eexists [EvReject _ _]. split; [flatten_trace; reflexivity |]. split; reflexivity.
    + eexists [EvResolve _ _]. split; [flatten_trace; reflexivity |]. split; reflexivity.
  - intros status data wd w. unfold bucket_iterator_item_complete.
    destruct (decide (status = napi_cancelled)) as [-> | Hst]; settle_status.
    + eexists [EvReject _ _]. split; [flatten_trace; reflexivity |]. split; reflexivity.
    + destruct (BucketIteratorItemData.bucket wd) as [b |].
      * eexists [EvNative _; EvResolve _ _].
        split; [flatten_trace; reflexivity |]. split; reflexivity.
      * eexists [EvResolve _ _].
        split; [flatten_trace; reflexivity |]. split; reflexivity.
  - intros F status data wd w. unfold Bucket.bucket_iterator_err_complete.
    destruct (decide (status = napi_cancelled)) as [-> | Hst]; settle_status.
    + eexists [EvReject _ _]. split; [flatten_trace; reflexivity |]. split; reflexivity.
    + destruct (Bucket.BucketIteratorErrData.error wd) as [e |].
      * eexists [EvNative _; EvResolve _ _].
        split; [flatten_trace; reflexivity |]. split; reflexivity.
      * eexists [EvResolve _ _].
        split; [flatten_trace; reflexivity |]. split; reflexivity.
  - intros status data wd w. unfold Bucket.free_bucket_iterator_complete.
    destruct (decide (status = napi_cancelled)) as [-> | Hst]; settle_status.
    + eexists [EvReject _ _]. split; [flatten_trace; reflexivity |]. split; reflexivity.
    + eexists [EvResolve _ _]. split; [flatten_trace; reflexivity |]. split; reflexivity.
Qed.

End BucketIteratorProperties.

(** ** downloadObject from call to completion *)

Section DownloadObjectProperties.

Implicit Types (w : world) (oom : alloc_oracle) (F : napi_faults).






End DownloadObjectProperties.

(** ** More on handles *)

Section MoreHandleProperties.

Implicit Types (w : world) (F : napi_faults) (ty : HandleType).

(** X15. [extract_handle] returns [napi_ok] and an id exactly for an
    external whose data points to a wrapper of the expected kind with an id
    other than 0; in every other case it returns [napi_invalid_arg] and
    stores no id. *)
Theorem extract_handle_ok_iff w v ty :
  (forall h,
      extract_handle w v ty = Some (napi_ok, Some h) <->
      exists data b,
        v = JsExternal data /\ data <> 0 /\ w_heap w !! data = Some b /\
        type (block_contents b) = ty /\ handle (block_contents b) = h /\ h <> 0) /\
  (forall st out,
      extract_handle w v ty = Some (st, out) ->
      (st = napi_ok /\ is_Some out) \/ (st = napi_invalid_arg /\ out = None)).
Proof.
  split.
  - intros h. split.
    + unfold extract_handle.
      destruct v as [| | | | | | | data]; cbn;
        try (destruct (decide _) as [_ | Hc]; [discriminate | exfalso; apply Hc; left; discriminate]).
      destruct (decide (napi_ok <> napi_ok \/ data = 0)) as [| Hd]; [discriminate |].
      destruct (w_heap w !! data) as [b |] eqn:Hb; [| discriminate].
      destruct (decide (type (block_contents b) <> ty)) as [| Hty]; [discriminate |].
      destruct (decide (handle (block_contents b) = 0)) as [| Hh]; [discriminate |].
      intros [= <-]. exists data, b.
      repeat split; try assumption; try reflexivity.
      * intros ->. apply Hd. by right.
      * destruct (decide (type (block_contents b) = ty)); [assumption | contradiction].
    + intros (data & b & -> & Hdata & Hb & Hty & Hh & Hnz).
      rewrite (extract_handle_block _ _ _ _ Hdata Hb), Hty, Hh.
      destruct (decide (ty <> ty)); [contradiction |].
      destruct (decide (h = 0)); [contradiction | reflexivity].
  - intros st out. unfold extract_handle.
    destruct (napi_get_value_external v) as [status data].
    destruct (decide (status <> napi_ok \/ data = 0)); [intros [= <- <-]; by right |].
    destruct (w_heap w !! data) as [b |]; [| discriminate].
    destruct (decide (type (block_contents b) <> ty)); [intros [= <- <-]; by right |].
    destruct (decide (handle (block_contents b) = 0)); [intros [= <- <-]; by right |].
    intros [= <- <-]. left. eauto.
Qed.

(** X16. A [create_handle_external] that fails leaves no wrapper block
    behind and throws only when it was the allocation that failed; when
    [napi_create_external] fails it returns NULL with nothing thrown.  A
    [create_handle_external] that succeeds changes the extraction of no
    other external. *)
Theorem create_handle_external_isolated F n ty p w :
  match create_handle_external F n ty p w with
  | (None, w') =>
      w_heap w' = w_heap w /\
      w_trace w'
      = w_trace w ++ (if malloc_fails F then [EvThrowError "Out of memory"] else [])
  | (Some v, w') =>
      v = JsExternal (Z.pos (w_fresh w)) /\
      w_trace w' = w_trace w /\
      forall d ty',
        d <> Z.pos (w_fresh w) ->
        extract_handle w' (JsExternal d) ty' = extract_handle w (JsExternal d) ty'
  end.
Proof.
  unfold create_handle_external.
  destruct (malloc_fails F); [split; reflexivity |].
  cbn. destruct (create_external_fails F).
  - split; [reflexivity | by rewrite app_nil_r].
  - split; [reflexivity |]. split; [reflexivity |].
    intros d ty' Hd. unfold extract_handle. cbn.
    destruct (decide (napi_ok <> napi_ok \/ d = 0)); [reflexivity |].
    rewrite lookup_insert_ne by congruence. reflexivity.
Qed.

End MoreHandleProperties.

(** ** Copying bytes *)

Section BufferProperties.

(** X17. [safe_memcpy] returns the smaller of [src_len] and [dest_size].
    When the destination block holds at least [dest_size] bytes and the
    source block at least [src_len] bytes, the destination block keeps its
    length, begins with the first bytes of the source, as many as the count
    returned, and is unchanged from there on: nothing is written past
    [dest_size]. *)
Theorem safe_memcpy_bounded (d s : list Z) (dest_size src_len : Z) :
  0 <= dest_size <= Z.of_nat (length d) ->
  0 <= src_len <= Z.of_nat (length s) ->
  exists d',
    safe_memcpy (Some d) dest_size (Some s) src_len = (Z.min src_len dest_size, Some d') /\
    length d' = length d /\
    take (Z.to_nat (Z.min src_len dest_size)) d'
    = take (Z.to_nat (Z.min src_len dest_size)) s /\
    drop (Z.to_nat (Z.min src_len dest_size)) d'
    = drop (Z.to_nat (Z.min src_len dest_size)) d.
Proof.
  intros Hd Hs. unfold safe_memcpy.
  destruct (decide (dest_size = 0)) as [-> | Hnz].
  - exists d. replace (Z.min src_len 0) with 0 by lia. cbn.
    repeat split; reflexivity.
  - set (n := if decide (src_len <= dest_size) then src_len else dest_size).
    assert (Hn : n = Z.min src_len dest_size)
      by (subst n; destruct (decide (src_len <= dest_size)); lia).
    rewrite Hn. eexists. split; [reflexivity |].
    assert (Hlen : length (take (Z.to_nat (Z.min src_len dest_size)) s)
                   = Z.to_nat (Z.min src_len dest_size))
      by (rewrite length_take; lia).
    split; [| split].
    + rewrite length_app, length_drop, Hlen. lia.
    + rewrite take_app_length'; [reflexivity | symmetry; exact Hlen].
    + rewrite drop_app_length'; [reflexivity | symmetry; exact Hlen].
Qed.

Lemma safe_memcpy_bounded_witness :
  safe_memcpy (Some [1; 2; 3]) 2 (Some [7; 8; 9; 10]) 4 = (2, Some [7; 8; 3]).
Proof.
  destruct (safe_memcpy_bounded [1; 2; 3] [7; 8; 9; 10] 2 4) as (d' & Heq & _);
    [cbn; lia | cbn; lia |].
  pose proof Heq as Heq'. vm_compute in Heq'. injection Heq' as <-. exact Heq.
Defined.

End BufferProperties.

(** ** listBucketsCreate: the cursor *)

Section ListBucketsCursorProperties.

Implicit Types (w : world) (F : napi_faults).





End ListBucketsCursorProperties.

(** ** testThrowTypedError *)

Section DebugProperties.

Implicit Types (w : world) (F : napi_faults).

(** [create_typed_error] reads the registry, the flag and the references
    only. *)
Lemma create_typed_error_same_registry F w1 w2 c message :
  g_registered w1 = g_registered w2 ->
  error_registry w1 = error_registry w2 ->
  w_refs w1 = w_refs w2 ->
  create_typed_error F w1 c message = create_typed_error F w2 c message.
Proof.
  intros H1 H2 H3.
  unfold create_typed_error, find_error_constructor_ref, napi_get_reference_value.
  rewrite H1, H2, H3. reflexivity.
Qed.

(** X19. [testThrowTypedError(code, message)] with a number and a string,
    and memory for its two allocations, never resolves its promise: it
    rejects it once, with the plain cancellation error when the work was
    cancelled and otherwise with what [create_typed_error] makes of the
    bottom 32 bits of the code and of the message up to its first NUL
    byte.  After the rejection it frees the copy of the message, deletes
    the work item and frees the payload, each once and in this order. *)
Theorem test_throw_typed_error_rejects oom F (cancelled : bool) code message rest w :
  oom (w_fresh w) = false ->
  oom (Pos.succ (w_fresh w)) = false ->
  let buf := Z.pos (w_fresh w) in
  let data := Z.pos (Pos.succ (w_fresh w)) in
  let deferred := Z.pos (Pos.succ (Pos.succ (w_fresh w))) in
  let work := Z.pos (Pos.succ (Pos.succ (Pos.succ (w_fresh w)))) in
  let reason :=
    if cancelled then napi_create_error "Operation cancelled"
    else create_typed_error F w (to_int32 code) (Some (c_str message)) in
  exists w',
    test_throw_typed_error_call oom F cancelled
      (JsNumber code :: JsString message :: rest) w = Some w' /\
    w_trace w'
    = w_trace w ++ [EvReject deferred reason; EvFree buf; EvDeleteAsyncWork work; EvFree data].
Proof.
  intros Hoom1 Hoom2. cbv zeta.
  unfold test_throw_typed_error_call, test_throw_typed_error, alloc.
  rewrite Hoom1. cbn [fresh w_fresh set_fresh]. rewrite Hoom2.
  cbn [fresh w_fresh set_fresh].
  unfold run_async_work, test_throw_execute, test_throw_complete.
  destruct cancelled.
  - destruct (decide (napi_cancelled = napi_cancelled)) as [_ | Hc]; [| contradiction].
    eexists. split; [reflexivity |].
    cbn. rewrite <- !app_assoc. reflexivity.
  - destruct (decide (napi_ok = napi_cancelled)) as [Hc | _]; [discriminate |].
    eexists. split; [reflexivity |].
    cbn [TestThrowData.error_message TestThrowData.error_code TestThrowData.deferred
         TestThrowData.work Uplink.deref].
    rewrite (create_typed_error_same_registry F _ w) by reflexivity.
    cbn. rewrite <- !app_assoc. reflexivity.
Qed.

Lemma test_throw_typed_error_rejects_witness :
  exists w',
    test_throw_typed_error_call never_oom no_faults false
      [JsNumber (2 ^ 32 + 19); JsString "no such bucket"] registered_world = Some w' /\
    List.filter is_resolution (w_trace w') = [].
Proof.
  destruct (test_throw_typed_error_rejects never_oom no_faults false (2 ^ 32 + 19)
              "no such bucket" [] registered_world eq_refl eq_refl) as (w' & Hcall & Htr).
  exists w'. split; [exact Hcall |].
  rewrite Htr, List.filter_app.
  assert (Hbefore : List.filter is_resolution (w_trace registered_world) = [])
    by (vm_compute; reflexivity).
  rewrite Hbefore. reflexivity.
Defined.

End DebugProperties.
